(** * frp-multiuser: the credential table, its loader and the login handler

    A shallow embedding of [lib/server.go].  Go strings are byte sequences
    and are modelled by [string] (a list of 8-bit [ascii] values); the
    credential table [map[string]string] is a [gmap string string]; Go
    functions that return [(value, error)] or may panic return a [result]. *)

From Stdlib Require Import Ascii String ZArith.
From stdpp Require Import base option list gmap strings.

Local Open Scope Z_scope.

(** ** Bytes and results *)

Definition LF : ascii := "010"%char.
Definition CR : ascii := "013"%char.
Definition EQ : ascii := "="%char.

(** [s] followed by a newline. *)
Definition line (s : string) : string := s +:+ String LF "".

(** A Go [error] is identified with the text its [Error()] method returns. *)
Definition error := string.

Inductive result (A : Type) : Type :=
| Ok (a : A)
| Err (e : error)
| Panic.
Arguments Ok {A} a.
Arguments Err {A} e.
Arguments Panic {A}.

Definition bind {A B} (r : result A) (k : A → result B) : result B :=
  match r with
  | Ok a => k a
  | Err e => Err e
  | Panic => Panic
  end.

Notation "x ←! r ; k" := (bind r (fun x => k))
  (at level 100, r at next level, right associativity, only parsing).

(** [for _, row := range rows { body }] over an accumulator. *)
Fixpoint forRange {A S} (body : S → A → result S) (rows : list A) (s : S)
  : result S :=
  match rows with
  | [] => Ok s
  | row :: rows' => s' ←! body s row; forRange body rows' s'
  end.

(** ** The [strings] package, as far as [readAuthFile] uses it

    Separators and cut sets are single ASCII bytes in the program, so they
    are [ascii] values here. *)
Module strings.

(** [s[:n]] and [s[n:]]. *)
Fixpoint sliceTo (s : string) (n : nat) {struct n} : string :=
  match n, s with
  | S n', String c s' => String c (sliceTo s' n')
  | _, _ => ""
  end.

Fixpoint sliceFrom (s : string) (n : nat) {struct n} : string :=
  match n, s with
  | S n', String _ s' => sliceFrom s' n'
  | _, _ => s
  end.

(** [strings.Index(s, sep)]: position of the first [sep], or -1. *)
Fixpoint Index (s : string) (sep : ascii) : Z :=
  match s with
  | "" => -1
  | String c s' =>
      if Ascii.eqb c sep then 0
      else let m := Index s' sep in if m <? 0 then -1 else m + 1
  end.

Definition Contains (s : string) (substr : ascii) : bool :=
  0 <=? Index s substr.

Fixpoint Count (s : string) (sep : ascii) : nat :=
  match s with
  | "" => 0%nat
  | String c s' => ((if Ascii.eqb c sep then 1 else 0) + Count s' sep)%nat
  end.

(** The loop of [genSplit]: [k] is the number of cuts still allowed
    ([n - 1 - i] in the Go code); the remainder is the last piece. *)
Fixpoint genSplit (s : string) (sep : ascii) (k : nat) : list string :=
  match k with
  | O => [s]
  | S k' =>
      let m := Index s sep in
      if m <? 0 then [s]
      else sliceTo s (Z.to_nat m)
             :: genSplit (sliceFrom s (Z.to_nat m + 1)) sep k'
  end.

(** [strings.SplitN(s, sep, n)] for [n >= 0]: at most [n] pieces. *)
Definition SplitN (s : string) (sep : ascii) (n : nat) : list string :=
  match n with
  | O => []
  | S k => genSplit s sep k
  end.

(** [strings.Split(s, sep)] is [genSplit] with [n = Count(s, sep) + 1]. *)
Definition Split (s : string) (sep : ascii) : list string :=
  genSplit s sep (Count s sep).

(** [strings.TrimRight(s, cutset)] for a one-byte ASCII cut set
    ([trimRightByte]): trailing copies of the byte are removed. *)
Fixpoint TrimRight (s : string) (c : ascii) : string :=
  match s with
  | "" => ""
  | String a s' =>
      match TrimRight s' c with
      | "" => if Ascii.eqb a c then "" else String a ""
      | t => String a t
      end
  end.

(** The UTF-8 encodings of the runes for which [unicode.IsSpace] holds:
    TAB, LF, VT, FF, CR, SPACE, U+0085, U+00A0, U+1680, U+2000..U+200A,
    U+2028, U+2029, U+202F, U+205F and U+3000. *)
Definition utf8_1 (a : ascii) : list ascii := [a].
Definition utf8_2 (a b : ascii) : list ascii := [a; b].
Definition utf8_3 (a b c : ascii) : list ascii := [a; b; c].
Arguments utf8_1 a%_char.
Arguments utf8_2 (a b)%_char.
Arguments utf8_3 (a b c)%_char.

Definition spaceRunes : list (list ascii) :=
  [utf8_1 "009"; utf8_1 "010"; utf8_1 "011"; utf8_1 "012"; utf8_1 "013";
   utf8_1 " ";
   utf8_2 "194" "133"; utf8_2 "194" "160";
   utf8_3 "225" "154" "128";
   utf8_3 "226" "128" "128"; utf8_3 "226" "128" "129";
   utf8_3 "226" "128" "130"; utf8_3 "226" "128" "131";
   utf8_3 "226" "128" "132"; utf8_3 "226" "128" "133";
   utf8_3 "226" "128" "134"; utf8_3 "226" "128" "135";
   utf8_3 "226" "128" "136"; utf8_3 "226" "128" "137";
   utf8_3 "226" "128" "138";
   utf8_3 "226" "128" "168"; utf8_3 "226" "128" "169";
   utf8_3 "226" "128" "175"; utf8_3 "226" "129" "159";
   utf8_3 "227" "128" "128"].

(** [stripPrefix p l] is [Some t] when [l = p ++ t]. *)
Fixpoint stripPrefix (p l : list ascii) : option (list ascii) :=
  match p, l with
  | [], _ => Some l
  | a :: p', b :: l' => if Ascii.eqb a b then stripPrefix p' l' else None
  | _ :: _, [] => None
  end.

(** Remove one leading occurrence of one of the patterns. *)
Fixpoint stripOne (pats : list (list ascii)) (l : list ascii)
  : option (list ascii) :=
  match pats with
  | [] => None
  | p :: pats' =>
      match stripPrefix p l with
      | Some t => Some t
      | None => stripOne pats' l
      end
  end.

(** Remove leading patterns as long as there is one; [fuel] bounds the
    number of rounds and the length of the input is always enough. *)
Fixpoint stripAll (pats : list (list ascii)) (fuel : nat) (l : list ascii)
  : list ascii :=
  match fuel with
  | O => l
  | S fuel' =>
      match stripOne pats l with
      | Some t => stripAll pats fuel' t
      | None => l
      end
  end.

(** The same encodings read from the last byte backwards. *)
Definition revSpaceRunes : list (list ascii) := map (@rev ascii) spaceRunes.

(** No pattern is a proper prefix of another one. *)
Definition prefixFree (pats : list (list ascii)) : Prop :=
  Forall (fun p => Forall (fun q => p `prefix_of` q → p = q) pats) pats.

(** [TrimLeftFunc(s, unicode.IsSpace)]: decoding a rune at the front
    yields a white-space rune exactly when the bytes start with its
    encoding (every other decoding, [RuneError] included, is no space). *)
Definition trimLeftSpace (l : list ascii) : list ascii :=
  stripAll spaceRunes (length l) l.

(** [TrimRightFunc(s, unicode.IsSpace)]: [DecodeLastRuneInString] yields
    a white-space rune exactly when the bytes end with its encoding. *)
Definition trimRightSpace (l : list ascii) : list ascii :=
  rev (stripAll revSpaceRunes (length l) (rev l)).

(** [strings.TrimSpace(s)]: its ASCII fast path and its fall-back
    [TrimFunc(s, unicode.IsSpace)] compute the same slice. *)
Definition TrimSpace (s : string) : string :=
  string_of_list_ascii
    (trimRightSpace (trimLeftSpace (list_ascii_of_string s))).

End strings.

(** ** The file system seen by [os.ReadFile] *)

(** Every path either holds some bytes or fails to be read with an error. *)
Definition FileSystem := string → string + error.

Definition os_ReadFile (fs : FileSystem) (filename : string) : result string :=
  match fs filename with
  | inl bytes => Ok bytes
  | inr err => Err err
  end.

(** ** [readAuthFile] *)

(** [kvs[i]]: indexing a slice out of range panics. *)
Definition index {A} (l : list A) (i : nat) : result A :=
  match l !! i with
  | Some x => Ok x
  | None => Panic
  end.

(** The body of the [for ... range] loop, lines 103 to 108. *)
Definition readAuthFile_row (AuthMap : gmap string string) (row : string)
  : result (gmap string string) :=
  if strings.Contains row EQ then
    let kvs := strings.SplitN row EQ 2 in
    kvs1 ←! index kvs 1;
    if bool_decide (strings.TrimSpace kvs1 ≠ "") then
      kvs0 ←! index kvs 0;
      kvs1' ←! index kvs 1;
      Ok (<[strings.TrimSpace kvs0 := strings.TrimSpace kvs1']> AuthMap)
    else Ok AuthMap
  else Ok AuthMap.

Definition readAuthFile (fs : FileSystem) (filename : string)
  : result (gmap string string) :=
  AuthDataBytes ←! os_ReadFile fs filename;
  let AuthData := AuthDataBytes in
  let AuthData := strings.TrimRight AuthData CR in
  let AuthMap : gmap string string := ∅ in
  forRange readAuthFile_row (strings.Split AuthData LF) AuthMap.

(** ** The shared table [Map]

    [Lock] only orders concurrent accesses; in this sequential model every
    read and every replacement of [Data] is already atomic, so the record
    keeps the table and the number of signals queued in [RefreshChan]. *)
Record Map := mkMap {
  Data : gmap string string;
  RefreshChan : nat
}.

(** [m.Data[user]]: a missing key reads as the empty string. *)
Definition mapIndex (d : gmap string string) (k : string) : string :=
  default "" (d !! k).

(** ** [Handler] *)

(** The fields of [plugin.LoginContent] and [plugin.Response] the handler
    touches ([Response.Content] is never set and stays [nil]). *)
Record LoginContent := mkLoginContent {
  User : string;
  Metas : gmap string string
}.

Record Response := mkResponse {
  Reject : bool;
  RejectReason : string;
  Unchange : bool
}.

Definition zeroResponse : Response :=
  {| Reject := false; RejectReason := ""; Unchange := false |}.

Definition set_Reject (b : bool) (r : Response) : Response :=
  {| Reject := b; RejectReason := RejectReason r; Unchange := Unchange r |}.
Definition set_RejectReason (s : string) (r : Response) : Response :=
  {| Reject := Reject r; RejectReason := s; Unchange := Unchange r |}.
Definition set_Unchange (b : bool) (r : Response) : Response :=
  {| Reject := Reject r; RejectReason := RejectReason r; Unchange := b |}.

Definition StatusOK : Z := 200.
Definition StatusBadRequest : Z := 400.
Definition StatusInternalServerError : Z := 500.

Definition DQ : string := String "034"%char "".

(** [fmt.Sprintf(`{"msg": "%s"}`, err.Error())] *)
Definition msgBody (err : error) : string :=
  "{" +:+ DQ +:+ "msg" +:+ DQ +:+ ": " +:+ DQ +:+ err +:+ DQ +:+ "}".

(** [fmt.Sprintf("user: `%s` invalid password", user)] *)
Definition invalidPassword (user : string) : string :=
  "user: `" +:+ user +:+ "` invalid password".

Definition emptyReason : string := "user or meta password can not be empty".

(** What one call of [Handler] leaves behind: the status and the body
    written to [w], and the value of the local [pluginResponse] handed to
    [json.Marshal] ([None] when the handler returns before declaring it). *)
Record Exchange := mkExchange {
  StatusCode : Z;
  Body : string;
  pluginResponse : option Response
}.

Section Handler.

(** [encoding/json] is outside the repository: decoding a body into
    [pluginRequest] (whose [Content] points to [pluginLoginContent])
    either fails or leaves a login content; encoding a response either
    yields bytes or fails. *)
Variable json_Unmarshal : string → LoginContent + error.
Variable json_Marshal : Response → string + error.

(** [r_Body] is what [ioutil.ReadAll(r.Body)] returns. *)
Definition Handler (r_Body : string + error) (m : Map) : Exchange :=
  match r_Body with
  | inr err =>
      mkExchange StatusInternalServerError (msgBody err) None
  | inl byteData =>
      match json_Unmarshal byteData with
      | inr err => mkExchange StatusBadRequest (msgBody err) None
      | inl pluginLoginContent =>
          let pluginResponse := zeroResponse in
          let user := User pluginLoginContent in
          let password := mapIndex (Metas pluginLoginContent) "password" in
          if bool_decide (user = "") || bool_decide (password = "") then
            let pluginResponse := set_Reject true pluginResponse in
            let pluginResponse := set_RejectReason emptyReason pluginResponse in
            match json_Marshal pluginResponse with
            | inr err =>
                mkExchange StatusInternalServerError (msgBody err)
                  (Some pluginResponse)
            | inl resp => mkExchange StatusOK resp (Some pluginResponse)
            end
          else
            let check := bool_decide (mapIndex (Data m) user = password) in
            let pluginResponse :=
              if check then set_Unchange true pluginResponse
              else set_RejectReason (invalidPassword user)
                     (set_Reject true pluginResponse) in
            match json_Marshal pluginResponse with
            | inr err =>
                mkExchange StatusInternalServerError (msgBody err)
                  (Some pluginResponse)
            | inl resp => mkExchange StatusOK resp (Some pluginResponse)
            end
      end
  end.

End Handler.

(** ** The watcher [inotifyAuthFile] *)

(** [fsnotify.Op] is a bit mask over these five constants. *)
Module fsnotify.
Definition Op := Z.
Definition Write : Op := 2.
End fsnotify.

(** [fsnotify.Event]: the path the event is about and its operation. *)
Record Event := mkEvent { Name : string; Op : fsnotify.Op }.

(** [make(chan struct{}, 5)], line 46: the room of [RefreshChan]. *)
Definition refreshChanCap : nat := 5.

(** What happens next around the watcher: its [select] takes the
    cancellation case, its [select] takes an event, or the reload loop
    takes a signal out of [refreshChan]. *)
Inductive WatchSelect :=
| WatchDone
| WatchEvent (event : Event)
| WatchReceive.

(** The state of a run of the watcher: the number of signals held by
    [refreshChan], whether the watcher stands in the send of line 131
    waiting for room, the number of sends completed, the lines logged,
    whether [w.Close()] has run, and the value returned ([None] while the
    function has not returned). *)
Record Watch := mkWatch {
  queued : nat;
  waiting : bool;
  sent : nat;
  watchLog : list string;
  closed : bool;
  returned : option (option error)
}.

Definition changedLine : string := line "auth file changed, read again...".

(** One step of the [for { select { ... } }] loop, lines 124 to 134,
    together with its channel.  A watcher that waits in the send is not
    at its [select]: neither case can be taken, and only a receive of the
    reload loop lets the send through.  At the [select], a Write event is
    logged first and then sent, at once when the channel has room. *)
Definition inotifyAuthFile_select (sel : WatchSelect) (st : Watch) : Watch :=
  if waiting st then
    match sel with
    | WatchReceive =>
        mkWatch (S (pred (queued st))) false (S (sent st)) (watchLog st)
          (closed st) (returned st)
    | WatchDone | WatchEvent _ => st
    end
  else
    match sel with
    | WatchDone =>
        mkWatch (queued st) false (sent st) (watchLog st) true (Some None)
    | WatchEvent event =>
        if Op event =? fsnotify.Write then
          let log := watchLog st ++ [changedLine] in
          if (queued st <? refreshChanCap)%nat then
            mkWatch (S (queued st)) false (S (sent st)) log (closed st)
              (returned st)
          else
            mkWatch (queued st) true (sent st) log (closed st) (returned st)
        else st
    | WatchReceive =>
        mkWatch (pred (queued st)) false (sent st) (watchLog st) (closed st)
          (returned st)
    end.

Fixpoint inotifyAuthFile_loop (sels : list WatchSelect) (st : Watch) : Watch :=
  match sels with
  | [] => st
  | sel :: sels' =>
      let st' := inotifyAuthFile_select sel st in
      match returned st' with
      | Some _ => st'
      | None => inotifyAuthFile_loop sels' st'
      end
  end.

(** The watcher before its loop: an empty channel, nothing sent. *)
Definition watchStart : Watch := mkWatch 0 false 0 [] false None.

(** [NewWatcher] and [Add] are given by their results; [sels] lists what
    happens around the loop, in order; [refreshChan] is the channel
    [NewServer] has just made, which holds nothing yet. *)
Definition inotifyAuthFile (NewWatcher Add : option error)
    (sels : list WatchSelect) : Watch :=
  match NewWatcher with
  | Some err => mkWatch 0 false 0 [] false (Some (Some err))
  | None =>
      match Add with
      | Some err => mkWatch 0 false 0 [] true (Some (Some err))
      | None => inotifyAuthFile_loop sels watchStart
      end
  end.

(** The receives among the steps of a run. *)
Definition isReceive (sel : WatchSelect) : bool :=
  match sel with
  | WatchReceive => true
  | WatchDone | WatchEvent _ => false
  end.

Definition receives (sels : list WatchSelect) : nat :=
  length (filter (fun sel => isReceive sel = true) sels).



(** ** The reload loop of [NewServer], lines 63 to 80 *)

Record Config := mkConfig {
  BindAddress : string;
  AuthFile : string;
  Inotify : bool
}.

(** The case a [select] statement of the reload loop takes; a refresh
    comes with the file system as it is when the file is read again. *)
Inductive ReloadSelect :=
| ReloadDone
| ReloadRefresh (fs : FileSystem).

(** How a goroutine stands: still in its loop, returned, or the whole
    process gone (a panic or [logger.Fatalf]). *)
Inductive Standing := Running | Returned | Crashed.

Record Reload := mkReload {
  table : Map;
  reloadLog : list string;
  standing : Standing
}.

(** [logger.Printf("read auth file error: %v\n", err)] *)
Definition readErrorLine (err : error) : string :=
  line ("read auth file error: " +:+ err).

Definition NewServer_reload_select (cfg : Config) (sel : ReloadSelect)
    (st : Reload) : Reload :=
  match sel with
  | ReloadDone => mkReload (table st) (reloadLog st) Returned
  | ReloadRefresh fs =>
      let m := mkMap (Data (table st)) (pred (RefreshChan (table st))) in
      match readAuthFile fs (AuthFile cfg) with
      | Err err => mkReload m (reloadLog st ++ [readErrorLine err]) Running
      | Ok AuthMap => mkReload (mkMap AuthMap (RefreshChan m)) (reloadLog st) Running
      | Panic => mkReload m (reloadLog st) Crashed
      end
  end.

Fixpoint NewServer_reload_loop (cfg : Config) (sels : list ReloadSelect)
    (st : Reload) : Reload :=
  match sels with
  | [] => st
  | sel :: sels' =>
      let st' := NewServer_reload_select cfg sel st in
      match standing st' with
      | Running => NewServer_reload_loop cfg sels' st'
      | _ => st'
      end
  end.

(** ** The credential file as the specification words it

    A second account of the loader, written from the description of the
    file format, to be compared with [readAuthFile]. *)
Module Spec.

(** The pieces of a text between the occurrences of a separator. *)
Fixpoint pieces (sep : ascii) (s : string) : list string :=
  match s with
  | "" => [""]
  | String c s' =>
      if Ascii.eqb c sep then "" :: pieces sep s'
      else match pieces sep s' with
           | [] => [String c ""]
           | piece :: rest => String c piece :: rest
           end
  end.

(** The text before and after the first occurrence of a separator. *)
Fixpoint cut (sep : ascii) (s : string) : option (string * string) :=
  match s with
  | "" => None
  | String c s' =>
      if Ascii.eqb c sep then Some ("", s')
      else match cut sep s' with
           | Some (before, after) => Some (String c before, after)
           | None => None
           end
  end.

(** The rows of a file: the pieces between newlines. *)
Definition rows (content : string) : list string := pieces LF content.

(** Key and value of a row: the text before and after its first [=]. *)
Definition cutFirst (row : string) : option (string * string) := cut EQ row.

(** The entry a row contributes: none without [=], none when the
    trimmed value is empty. *)
Definition entry (row : string) : option (string * string) :=
  match cutFirst row with
  | None => None
  | Some (key, value) =>
      if bool_decide (strings.TrimSpace value = "") then None
      else Some (strings.TrimSpace key, strings.TrimSpace value)
  end.

Definition entries (content : string) : list (string * string) :=
  omap entry (rows content).

Definition put (m : gmap string string) (kv : string * string)
  : gmap string string := <[kv.1 := kv.2]> m.

(** Entries are entered in file order, a later one replacing an earlier
    one with the same key. *)
Definition Load (content : string) : gmap string string :=
  foldl put ∅ (entries content).

(** [k] carriage returns. *)
Fixpoint crs (k : nat) : string :=
  match k with
  | O => ""
  | S k' => String CR (crs k')
  end.

(** The same content with every line ending LF turned into CR LF. *)
Fixpoint toCRLF (content : string) : string :=
  match content with
  | "" => ""
  | String c content' =>
      if Ascii.eqb c LF then String CR (String LF (toCRLF content'))
      else String c (toCRLF content')
  end.

End Spec.

(** Two rows that differ only in carriage returns at the end. *)
Definition upToCRs (row row' : string) : Prop :=
  ∃ k, row' = row +:+ Spec.crs k.

(** ** Sample file systems and requests *)

(** The file system without any file. *)
Definition noFiles : FileSystem :=
  fun name => inr ("open " +:+ name +:+ ": no such file or directory").

(** [fs] after [content] has been written to [filename]. *)
Definition writeFile (fs : FileSystem) (filename content : string)
  : FileSystem :=
  fun name => if bool_decide (name = filename) then inl content else fs name.

(** The table [{"alice": "secret"}] and a login of alice. *)
Definition aliceTable : Map := mkMap {[ "alice" := "secret" ]} 0.

Definition login (user password : string) : LoginContent :=
  mkLoginContent user {[ "password" := password ]}.

(** A decoder that accepts every body as the given login, one that
    rejects every body, and an encoder that always yields the same bytes. *)
Definition decodeAs (c : LoginContent) : string → LoginContent + error :=
  fun _ => inl c.
Definition decodeFails (err : error) : string → LoginContent + error :=
  fun _ => inr err.
Definition encodeAs (bytes : string) : Response → string + error :=
  fun _ => inl bytes.

Definition sampleConfig : Config := mkConfig "[::]:7003" "./tokens" true.

(** An encoder that tells the decisions apart. *)
Definition encodeShow : Response → string + error :=
  fun d => inl (if Unchange d then "unchange"
                else "reject: " +:+ RejectReason d).

(** ** JSON texts of the shape of the error body *)

Definition isHex (c : ascii) : bool :=
  let n := N_of_ascii c in
  ((48 <=? n) && (n <=? 57) || (65 <=? n) && (n <=? 70)
   || (97 <=? n) && (n <=? 102))%N.

(** The characters of a JSON string after its opening quote (RFC 8259):
    no control character, a backslash only as the start of an escape
    (a quote, a backslash, a slash, one of b f n r t, or u and four
    hexadecimal digits), up to the first quote that is not escaped.  The result is the text behind that
    quote, [None] when the string is malformed or not closed. *)
Fixpoint jsonStringRest (s : string) : option string :=
  match s with
  | "" => None
  | String c s' =>
      if Ascii.eqb c "034" then Some s'
      else if Ascii.eqb c "\" then
        match s' with
        | String e s'' =>
            if existsb (Ascii.eqb e) ["034"; "\"; "/"; "b"; "f"; "n"; "r"; "t"]%char
            then jsonStringRest s''
            else if Ascii.eqb e "u" then
              match s'' with
              | String h1 (String h2 (String h3 (String h4 s4))) =>
                  if isHex h1 && isHex h2 && isHex h3 && isHex h4
                  then jsonStringRest s4 else None
              | _ => None
              end
            else None
        | "" => None
        end
      else if (N_of_ascii c <? 32)%N then None
      else jsonStringRest s'
  end.

Fixpoint afterPrefix (p s : string) : option string :=
  match p, s with
  | "", _ => Some s
  | String a p', String b s' => if Ascii.eqb a b then afterPrefix p' s' else None
  | String _ _, "" => None
  end.

(** [body] is the JSON object with the one member msg, a string, laid
    out as the handler lays it out. *)
Definition isJSONMsg (body : string) : bool :=
  match afterPrefix ("{" +:+ DQ +:+ "msg" +:+ DQ +:+ ": " +:+ DQ) body with
  | Some rest =>
      match jsonStringRest rest with
      | Some tail => bool_decide (tail = "}")
      | None => false
      end
  | None => false
  end.


(** ** The start of [NewServer], lines 35 to 47 *)

(** How the start ends: [logger.Fatalf] with a message, a panic, or the
    table the server goes on with. *)
Inductive Startup :=
| Fatal (msg : string)
| StartPanic
| Started (m : Map).

(** [net.SplitHostPort] is given by the error it returns, if any; the
    channel is created with room for five signals and holds none. *)
Definition NewServer_start (net_SplitHostPort : string → option error)
    (cfg : Config) (fs : FileSystem) : Startup :=
  match net_SplitHostPort (BindAddress cfg) with
  | Some err => Fatal (line ("parse bind address error: " +:+ err))
  | None =>
      match readAuthFile fs (AuthFile cfg) with
      | Err err => Fatal (line ("read auth file error: " +:+ err))
      | Panic => StartPanic
      | Ok AuthMap => Started (mkMap AuthMap 0)
      end
  end.

(** ** Credential files written out from a list of entries *)

(** One row [key=value] and a newline per entry, in the order of the
    list. *)
Fixpoint render (es : list (string * string)) : string :=
  match es with
  | [] => ""
  | (key, value) :: es' =>
      key +:+ String EQ value +:+ String LF (render es')
  end.

(** An entry that a row can carry unchanged: key and value are free of
    surrounding white space and of newlines, the key is free of [=], and
    the value is not empty. *)
Definition cleanEntry (kv : string * string) : Prop :=
  strings.TrimSpace kv.1 = kv.1
  ∧ strings.TrimSpace kv.2 = kv.2
  ∧ kv.2 ≠ ""
  ∧ strings.Contains kv.1 EQ = false
  ∧ strings.Contains kv.1 LF = false
  ∧ strings.Contains kv.2 LF = false.

(** The decision that lets a login through. *)
Definition unchanged : Response := mkResponse false "" true.

(** A refresh whose read of [filename] fails. *)
Definition readFails (filename : string) (sel : ReloadSelect) : Prop :=
  match sel with
  | ReloadDone => False
  | ReloadRefresh fs => ∃ err, fs filename = inr err
  end.

(** * Properties *)

(** ** Stripping patterns from the front of a byte sequence *)
Section strip.
Import strings.

Lemma stripPrefix_Some p l t : stripPrefix p l = Some t ↔ l = p ++ t.
Proof.
  revert l. induction p as [|a p IH]; intros [|b l]; simpl.
  - split; congruence.
  - split; congruence.
  - split; [discriminate | intros H; discriminate H].
  - destruct (Ascii.eqb_spec a b) as [->|Hne].
    + rewrite IH. split; congruence.
    + split; [discriminate | congruence].
Qed.

Lemma stripPrefix_None p l : stripPrefix p l = None ↔ ¬ p `prefix_of` l.
Proof.
  split.
  - intros H [t ->]. assert (stripPrefix p (p ++ t) = Some t) as E
      by (by apply stripPrefix_Some). congruence.
  - intros H. destruct (stripPrefix p l) as [t|] eqn:E; [|done].
    apply stripPrefix_Some in E. destruct H. by exists t.
Qed.

Lemma stripOne_Some pats l t :
  stripOne pats l = Some t → ∃ p, p ∈ pats ∧ l = p ++ t.
Proof.
  induction pats as [|q pats IH]; simpl; [discriminate|].
  destruct (stripPrefix q l) as [t'|] eqn:E.
  - intros [= ->]. apply stripPrefix_Some in E. exists q. split; [left|done].
  - intros H. destruct (IH H) as (p & Hp & ->). exists p. split; [by right|done].
Qed.

Lemma stripOne_None pats l :
  stripOne pats l = None ↔ ∀ p, p ∈ pats → ¬ p `prefix_of` l.
Proof.
  induction pats as [|q pats IH]; simpl.
  - split; [intros _ p Hp; inversion Hp | done].
  - destruct (stripPrefix q l) as [t'|] eqn:E.
    + split; [discriminate|]. intros H. apply stripPrefix_Some in E.
      destruct (H q); [left | by exists t'].
    + rewrite IH. apply stripPrefix_None in E. split.
      * intros H p Hp. inversion Hp; subst; auto.
      * intros H p Hp. apply H. by right.
Qed.

Lemma stripOne_app pats p t :
  prefixFree pats → p ∈ pats → stripOne pats (p ++ t) = Some t.
Proof.
  intros Hfree Hp.
  destruct (stripOne pats (p ++ t)) as [t'|] eqn:E.
  - destruct (stripOne_Some _ _ _ E) as (q & Hq & Heq).
    assert (p = q) as <-.
    { unfold prefixFree in Hfree. rewrite Forall_forall in Hfree.
      destruct (prefix_weak_total p q (p ++ t)) as [Hpq|Hqp].
      - by exists t.
      - rewrite Heq. by exists t'.
      - specialize (Hfree p Hp). rewrite Forall_forall in Hfree. by apply Hfree.
      - specialize (Hfree q Hq). rewrite Forall_forall in Hfree.
        symmetry. by apply Hfree. }
    f_equal. by apply app_inv_head in Heq.
  - rewrite stripOne_None in E. destruct (E p Hp). by exists t.
Qed.

(** Once the fuel covers the input, more of it changes nothing. *)
Lemma stripAll_fuel pats fuel l :
  Forall (fun p => p ≠ []) pats → (length l ≤ fuel)%nat →
  stripAll pats fuel l = stripAll pats (length l) l.
Proof.
  intros Hne. revert l.
  induction (lt_wf fuel) as [fuel _ IH]. intros l Hlen.
  destruct fuel as [|fuel].
  - by replace (length l) with 0%nat by lia.
  - destruct l as [|a l].
    + simpl. destruct (stripOne pats []) as [t|] eqn:E; [|done].
      apply stripOne_Some in E as (p & Hp & Heq).
      rewrite Forall_forall in Hne. specialize (Hne p Hp).
      symmetry in Heq. apply app_eq_nil in Heq as [? ?]. done.
    + cbn [stripAll length].
      destruct (stripOne pats (a :: l)) as [t|] eqn:E; [|done].
      pose proof E as E'.
      apply stripOne_Some in E' as (p & Hp & Heq).
      rewrite Forall_forall in Hne. pose proof (Hne p Hp) as Hpne.
      assert (length t ≤ length l)%nat as Ht.
      { apply (f_equal length) in Heq. rewrite length_app in Heq. simpl in Heq.
        destruct p; [done|]. simpl in Heq. lia. }
      simpl in Hlen.
      rewrite (IH fuel) by lia. symmetry. apply (IH (length l)); lia.
Qed.

Lemma stripAll_unfold pats l :
  Forall (fun p => p ≠ []) pats →
  stripAll pats (length l) l =
  match stripOne pats l with
  | Some t => stripAll pats (length t) t
  | None => l
  end.
Proof.
  intros Hne. rewrite <- (stripAll_fuel pats (S (length l)) l) by (done || lia).
  simpl. destruct (stripOne pats l) as [t|] eqn:E; [|done].
  apply stripAll_fuel; [done|].
  apply stripOne_Some in E as (p & Hp & ->). rewrite length_app. lia.
Qed.

End strip.

(** ** White space *)
Section space.
Import strings.

Lemma spaceRunes_prefixFree : prefixFree spaceRunes.
Proof.
  unfold prefixFree. apply (bool_decide_unpack _). vm_compute. reflexivity.
Qed.

Lemma revSpaceRunes_prefixFree : prefixFree revSpaceRunes.
Proof.
  unfold prefixFree. apply (bool_decide_unpack _). vm_compute. reflexivity.
Qed.

Lemma spaceRunes_nonempty : Forall (fun p => p ≠ []) spaceRunes.
Proof. repeat constructor; discriminate. Qed.

Lemma revSpaceRunes_nonempty : Forall (fun p => p ≠ []) revSpaceRunes.
Proof. repeat constructor; discriminate. Qed.

(** The only white-space encoding that ends in CR is CR itself. *)
Lemma spaceRunes_last_CR :
  Forall (fun p => ∀ l, p = l ++ [CR] → l = []) spaceRunes.
Proof.
  repeat constructor; intros [|a [|b [|c [|d l]]]] H; try done;
    try discriminate H.
Qed.

Lemma CR_in_revSpaceRunes : [CR] ∈ revSpaceRunes.
Proof. apply (bool_decide_unpack _). vm_compute. reflexivity. Qed.

Lemma CR_in_spaceRunes : [CR] ∈ spaceRunes.
Proof. apply (bool_decide_unpack _). vm_compute. reflexivity. Qed.

Lemma trimLeftSpace_unfold l :
  trimLeftSpace l =
  match stripOne spaceRunes l with
  | Some t => trimLeftSpace t
  | None => l
  end.
Proof. apply stripAll_unfold, spaceRunes_nonempty. Qed.

Lemma trimRightSpace_nil : trimRightSpace [] = [].
Proof. reflexivity. Qed.

Lemma trimRightSpace_app_CR l : trimRightSpace (l ++ [CR]) = trimRightSpace l.
Proof.
  unfold trimRightSpace. f_equal.
  rewrite <- (length_rev (l ++ [CR])), <- (length_rev l), rev_app_distr.
  rewrite (stripAll_unfold revSpaceRunes (rev [CR] ++ rev l))
    by apply revSpaceRunes_nonempty.
  change (rev [CR]) with [CR].
  by rewrite stripOne_app
    by (apply revSpaceRunes_prefixFree || apply CR_in_revSpaceRunes).
Qed.

Lemma trimLeftSpace_app_CR l :
  trimLeftSpace (l ++ [CR]) =
  match trimLeftSpace l with
  | [] => []
  | t => t ++ [CR]
  end.
Proof.
  remember (length l) as n eqn:Hn. revert l Hn.
  induction (lt_wf n) as [n _ IH]. intros l ->.
  rewrite (trimLeftSpace_unfold l), (trimLeftSpace_unfold (l ++ [CR])).
  destruct (stripOne spaceRunes l) as [t|] eqn:E.
  - apply stripOne_Some in E as (p & Hp & ->).
    rewrite <- app_assoc.
    rewrite (stripOne_app spaceRunes p (t ++ [CR]) spaceRunes_prefixFree Hp).
    apply (IH (length t)); [|done].
    pose proof spaceRunes_nonempty as Hne. rewrite Forall_forall in Hne.
    specialize (Hne p Hp). rewrite length_app. destruct p; [done|simpl; lia].
  - destruct l as [|a l].
    + pose proof (stripOne_app spaceRunes [CR] []
                    spaceRunes_prefixFree CR_in_spaceRunes) as H.
      change (stripOne spaceRunes [CR] = Some []) in H.
      change ([] ++ [CR]) with [CR]. by rewrite H.
    + assert (stripOne spaceRunes ((a :: l) ++ [CR]) = None) as ->; [|done].
      rewrite stripOne_None in E. apply stripOne_None. intros p Hp Hpre.
      destruct (decide (p `prefix_of` (a :: l))) as [Hin|Hout].
      { by apply (E p Hp). }
      destruct Hpre as [t Ht].
      destruct (decide (t = [])) as [->|Htne].
      * rewrite app_nil_r in Ht.
        pose proof spaceRunes_last_CR as Hlast. rewrite Forall_forall in Hlast.
        by specialize (Hlast p Hp (a :: l) (eq_sym Ht)).
      * destruct (exists_last Htne) as (t' & c & ->).
        rewrite app_assoc in Ht. apply app_inj_tail in Ht as [Ht _].
        apply Hout. by exists t'.
Qed.

Lemma list_ascii_of_string_app s1 s2 :
  list_ascii_of_string (s1 +:+ s2)
  = list_ascii_of_string s1 ++ list_ascii_of_string s2.
Proof. induction s1 as [|a s1 IH]; simpl; [done|]. by rewrite <- IH. Qed.

Lemma TrimSpace_app_CR s :
  TrimSpace (s +:+ String CR "") = TrimSpace s.
Proof.
  unfold TrimSpace. f_equal. rewrite list_ascii_of_string_app. simpl.
  rewrite trimLeftSpace_app_CR.
  destruct (trimLeftSpace (list_ascii_of_string s)) as [|a t] eqn:E.
  - done.
  - apply trimRightSpace_app_CR.
Qed.

End space.

(** ** Cutting and splitting *)
Section split.
Import strings.

Lemma append_nil_r s : s +:+ "" = s.
Proof. induction s as [|a s IH]; [done|]. unfold String.app in *. simpl. by rewrite IH. Qed.

Lemma append_assoc s1 s2 s3 : (s1 +:+ s2) +:+ s3 = s1 +:+ (s2 +:+ s3).
Proof.
  induction s1 as [|a s1 IH]; [done|]. unfold String.app in *. simpl.
  by rewrite IH.
Qed.

Lemma append_cons a s1 s2 : String a s1 +:+ s2 = String a (s1 +:+ s2).
Proof. done. Qed.

(** [Index] and the slices around it, in terms of [Spec.cut]. *)
Lemma Index_cut sep s :
  match Spec.cut sep s with
  | Some (before, after) =>
      0 ≤ Index s sep
      ∧ sliceTo s (Z.to_nat (Index s sep)) = before
      ∧ sliceFrom s (Z.to_nat (Index s sep) + 1) = after
  | None => Index s sep = -1
  end.
Proof.
  induction s as [|c s IH]; [done|]. cbn [Spec.cut Index].
  destruct (Ascii.eqb c sep); [by split; [lia|split; reflexivity]|].
  destruct (Spec.cut sep s) as [[before after]|].
  - destruct IH as (Hm & Hb & Ha). cbv zeta.
    destruct (Z.ltb_spec (Index s sep) 0) as [?|_]; [lia|].
    replace (Z.to_nat (Index s sep + 1)) with (S (Z.to_nat (Index s sep)))
      by lia.
    cbn [sliceTo sliceFrom Nat.add]. rewrite Hb, Ha. split; [lia|done].
  - cbv zeta. by rewrite IH.
Qed.

Lemma Contains_cut sep s :
  Contains s sep = bool_decide (is_Some (Spec.cut sep s)).
Proof.
  unfold Contains. pose proof (Index_cut sep s) as H.
  destruct (Spec.cut sep s) as [[before after]|].
  - destruct H as (Hm & _). rewrite bool_decide_true by eauto.
    by apply Z.leb_le.
  - rewrite H, bool_decide_false; [done|]. by intros [? ?].
Qed.

Lemma genSplit_cut sep s k :
  genSplit s sep (S k) =
  match Spec.cut sep s with
  | Some (before, after) => before :: genSplit after sep k
  | None => [s]
  end.
Proof.
  cbn [genSplit]. pose proof (Index_cut sep s) as H.
  destruct (Spec.cut sep s) as [[before after]|].
  - destruct H as (Hm & Hb & Ha).
    destruct (Z.ltb_spec (Index s sep) 0) as [?|_]; [lia|].
    by rewrite Hb, Ha.
  - by rewrite H.
Qed.

Lemma pieces_cut sep s :
  Spec.pieces sep s =
  match Spec.cut sep s with
  | Some (before, after) => before :: Spec.pieces sep after
  | None => [s]
  end.
Proof.
  induction s as [|c s IH]; simpl; [done|].
  destruct (Ascii.eqb c sep); [done|]. rewrite IH.
  by destruct (Spec.cut sep s) as [[before after]|].
Qed.

Lemma Count_cut sep s :
  Count s sep =
  match Spec.cut sep s with
  | Some (_, after) => S (Count after sep)
  | None => 0%nat
  end.
Proof.
  induction s as [|c s IH]; simpl; [done|].
  destruct (Ascii.eqb c sep); [done|]. rewrite IH.
  by destruct (Spec.cut sep s) as [[before after]|].
Qed.

(** With at least [Count] cuts allowed, [genSplit] yields all pieces. *)
Lemma genSplit_pieces sep k s :
  (Count s sep ≤ k)%nat → genSplit s sep k = Spec.pieces sep s.
Proof.
  revert s. induction k as [|k IH]; intros s Hk.
  - rewrite pieces_cut. rewrite Count_cut in Hk.
    destruct (Spec.cut sep s) as [[before after]|]; [lia|done].
  - rewrite genSplit_cut, pieces_cut. rewrite Count_cut in Hk.
    destruct (Spec.cut sep s) as [[before after]|]; [|done].
    f_equal. apply IH. lia.
Qed.

Lemma Split_rows content : Split content LF = Spec.rows content.
Proof. by apply genSplit_pieces. Qed.

Lemma SplitN_2 row :
  SplitN row EQ 2 =
  match Spec.cutFirst row with
  | Some (key, value) => [key; value]
  | None => [row]
  end.
Proof. unfold SplitN. by rewrite genSplit_cut. Qed.

(** Carriage returns at the end of a text stay in the part after the
    first separator. *)
Lemma cut_crs k : Spec.cut EQ (Spec.crs k) = None.
Proof. induction k as [|k IH]; simpl; [done|]. by rewrite IH. Qed.

Lemma cut_app_crs s k :
  Spec.cut EQ (s +:+ Spec.crs k) =
  match Spec.cut EQ s with
  | Some (before, after) => Some (before, after +:+ Spec.crs k)
  | None => None
  end.
Proof.
  induction s as [|c s IH].
  - apply cut_crs.
  - rewrite append_cons. simpl. destruct (Ascii.eqb c EQ); [done|].
    rewrite IH. by destruct (Spec.cut EQ s) as [[before after]|].
Qed.

Lemma crs_snoc k : Spec.crs (S k) = Spec.crs k +:+ String CR "".
Proof. induction k as [|k IH]; [done|]. cbn [Spec.crs] in *. by rewrite IH at 1. Qed.

Lemma TrimSpace_app_crs s k : TrimSpace (s +:+ Spec.crs k) = TrimSpace s.
Proof.
  induction k as [|k IH].
  - by rewrite append_nil_r.
  - by rewrite crs_snoc, <- append_assoc, TrimSpace_app_CR.
Qed.

Lemma entry_app_crs row k : Spec.entry (row +:+ Spec.crs k) = Spec.entry row.
Proof.
  unfold Spec.entry, Spec.cutFirst. rewrite cut_app_crs.
  destruct (Spec.cut EQ row) as [[key value]|]; [|done].
  by rewrite TrimSpace_app_crs.
Qed.

End split.

(** ** The loader against the file format *)
Section loader.
Import strings.

Lemma upToCRs_refl row : upToCRs row row.
Proof. exists 0%nat. by rewrite append_nil_r. Qed.

Lemma upToCRs_cons a row row' :
  upToCRs row row' → upToCRs (String a row) (String a row').
Proof. intros [k ->]. by exists k. Qed.

Lemma pieces_nonempty sep s : Spec.pieces sep s ≠ [].
Proof.
  destruct s as [|c s]; simpl; [done|].
  destruct (Ascii.eqb c sep); [done|]. by destruct (Spec.pieces sep s).
Qed.

Lemma rows_cons a s s' :
  Forall2 upToCRs (Spec.rows s) (Spec.rows s') →
  Forall2 upToCRs (Spec.rows (String a s)) (Spec.rows (String a s')).
Proof.
  unfold Spec.rows. intros H. simpl. destruct (Ascii.eqb a LF).
  - constructor; [apply upToCRs_refl | done].
  - destruct H as [|row row' rest rest' Hrow Hrest].
    + constructor; [apply upToCRs_refl | done].
    + constructor; [by apply upToCRs_cons | done].
Qed.

Lemma rows_crs k : Spec.rows (Spec.crs k) = [Spec.crs k].
Proof.
  unfold Spec.rows. induction k as [|k IH]; simpl; [done|]. by rewrite IH.
Qed.

Lemma TrimRight_nil s : TrimRight s CR = "" → ∃ k, s = Spec.crs k.
Proof.
  induction s as [|a s IH]; simpl.
  - by exists 0%nat.
  - destruct (TrimRight s CR) eqn:E; [|done].
    destruct (Ascii.eqb_spec a CR) as [->|]; [|done].
    intros _. destruct IH as [k ->]; [done|]. by exists (S k).
Qed.

Lemma TrimRight_cons a s :
  TrimRight (String a s) CR =
  if bool_decide (TrimRight s CR = "") && Ascii.eqb a CR then ""
  else String a (TrimRight s CR).
Proof.
  simpl. destruct (TrimRight s CR) eqn:E; simpl; [|done].
  by destruct (Ascii.eqb a CR).
Qed.

(** Stripping the carriage returns at the end of the buffer changes
    the last row only, and only by carriage returns. *)
Lemma rows_TrimRight s :
  Forall2 upToCRs (Spec.rows (TrimRight s CR)) (Spec.rows s).
Proof.
  induction s as [|a s IH].
  - constructor; [apply upToCRs_refl | done].
  - rewrite TrimRight_cons.
    destruct (bool_decide (TrimRight s CR = "")) eqn:Hnil; simpl;
      [destruct (Ascii.eqb_spec a CR) as [->|] |]; try by apply rows_cons.
    apply bool_decide_eq_true in Hnil. apply TrimRight_nil in Hnil as [k ->].
    change (String CR (Spec.crs k)) with (Spec.crs (S k)).
    rewrite rows_crs. constructor; [by exists (S k) | done].
Qed.

Lemma rows_toCRLF s :
  Forall2 upToCRs (Spec.rows s) (Spec.rows (Spec.toCRLF s)).
Proof.
  induction s as [|a s IH].
  - constructor; [apply upToCRs_refl | done].
  - cbn [Spec.toCRLF]. destruct (Ascii.eqb_spec a LF) as [->|Hne].
    + unfold Spec.rows in *. simpl.
      constructor; [by exists 1%nat | done].
    + by apply rows_cons.
Qed.

Lemma entries_upToCRs rows rows' :
  Forall2 upToCRs rows rows' → omap Spec.entry rows = omap Spec.entry rows'.
Proof.
  induction 1 as [|row row' rest rest' [k ->] _ IH]; [done|].
  cbn [omap list_omap]. by rewrite entry_app_crs, IH.
Qed.

(** One round of the loop enters the entry of the row, if it has one;
    in particular [kvs[1]] is never out of range. *)
Lemma readAuthFile_row_entry AuthMap row :
  readAuthFile_row AuthMap row =
  Ok (match Spec.entry row with
      | Some kv => Spec.put AuthMap kv
      | None => AuthMap
      end).
Proof.
  unfold readAuthFile_row, Spec.entry.
  rewrite Contains_cut, SplitN_2. unfold Spec.cutFirst.
  destruct (Spec.cut EQ row) as [[key value]|].
  - rewrite bool_decide_true by eauto. cbn [index lookup list_lookup bind].
    destruct (decide (TrimSpace value = "")) as [E|E].
    + by rewrite bool_decide_false, bool_decide_true by (done || by intros []).
    + by rewrite bool_decide_true, bool_decide_false by done.
  - rewrite bool_decide_false; [done|]. by intros [? ?].
Qed.

Lemma forRange_entries rows AuthMap :
  forRange readAuthFile_row rows AuthMap
  = Ok (foldl Spec.put AuthMap (omap Spec.entry rows)).
Proof.
  revert AuthMap. induction rows as [|row rows IH]; intros AuthMap; [done|].
  cbn [forRange]. rewrite readAuthFile_row_entry. cbn [bind]. rewrite IH.
  cbn [omap list_omap]. by destruct (Spec.entry row).
Qed.

Lemma readAuthFile_eq fs filename :
  readAuthFile fs filename =
  match fs filename with
  | inl content => Ok (Spec.Load content)
  | inr err => Err err
  end.
Proof.
  unfold readAuthFile, os_ReadFile. destruct (fs filename) as [content|err];
    [|done].
  cbn [bind]. rewrite Split_rows, forRange_entries.
  unfold Spec.Load, Spec.entries.
  by rewrite (entries_upToCRs _ _ (rows_TrimRight content)).
Qed.

Lemma writeFile_read fs filename content :
  writeFile fs filename content filename = inl content.
Proof. unfold writeFile. by rewrite bool_decide_true. Qed.

(** The table built by [foldl Spec.put]: the last entry of a key wins. *)
Lemma foldl_put_snoc m es kv :
  foldl Spec.put m (es ++ [kv]) = Spec.put (foldl Spec.put m es) kv.
Proof. by rewrite foldl_app. Qed.

Lemma foldl_put_lookup es k v :
  foldl Spec.put ∅ es !! k = Some v ↔
  ∃ es1 es2, es = es1 ++ (k, v) :: es2 ∧ ∀ v', (k, v') ∉ es2.
Proof.
  induction es as [|[k' v'] es IH] using rev_ind.
  - simpl. rewrite lookup_empty. split; [done|].
    intros (es1 & es2 & H & _). by destruct es1.
  - rewrite foldl_put_snoc. unfold Spec.put at 1. cbn [fst snd].
    destruct (decide (k' = k)) as [->|Hne].
    + rewrite lookup_insert_eq. split.
      * intros [= ->]. exists es, []. split; [done|]. intros v'' H. inversion H.
      * intros (es1 & es2 & H & Hlast).
        destruct es2 as [|e es2 _] using rev_ind.
        -- apply app_inj_tail in H as [_ [= ->]]. done.
        -- rewrite app_comm_cons, app_assoc in H.
           apply app_inj_tail in H as [_ <-].
           destruct (Hlast v'). apply elem_of_app. right. left.
    + rewrite lookup_insert_ne by done. rewrite IH. split.
      * intros (es1 & es2 & -> & Hlast).
        exists es1, (es2 ++ [(k', v')]). split; [by rewrite <- app_assoc|].
        intros v'' [H|H]%elem_of_app; [by apply (Hlast v'')|].
        apply list_elem_of_singleton in H. congruence.
      * intros (es1 & es2 & H & Hlast).
        destruct es2 as [|e es2 _] using rev_ind.
        -- apply app_inj_tail in H as [_ [= ? ?]]. done.
        -- rewrite app_comm_cons, app_assoc in H.
           apply app_inj_tail in H as [-> <-].
           exists es1, es2. split; [done|].
           intros v'' Hin. apply (Hlast v''). apply elem_of_app. by left.
Qed.

(** Every value the loader stores is a trimmed, non-empty value. *)
Lemma entry_value_nonempty row k v : Spec.entry row = Some (k, v) → v ≠ "".
Proof.
  unfold Spec.entry. destruct (Spec.cutFirst row) as [[key value]|]; [|done].
  destruct (decide (TrimSpace value = "")) as [E|E].
  - by rewrite bool_decide_true.
  - rewrite bool_decide_false by done. by intros [= _ <-].
Qed.

Lemma Load_value_nonempty content k v :
  Spec.Load content !! k = Some v → v ≠ "".
Proof.
  unfold Spec.Load. rewrite foldl_put_lookup.
  intros (es1 & es2 & H & _).
  assert ((k, v) ∈ Spec.entries content) as Hin.
  { rewrite H. apply elem_of_app. right. left. }
  unfold Spec.entries in Hin. apply list_elem_of_omap in Hin as (row & _ & Hrow).
  by eapply entry_value_nonempty.
Qed.

End loader.


(** ** The login handler *)
Section handler.
Variable json_Unmarshal : string → LoginContent + error.
Variable json_Marshal : Response → string + error.

Lemma mapIndex_eq (d : gmap string string) k v :
  v ≠ "" → mapIndex d k = v ↔ d !! k = Some v.
Proof.
  unfold mapIndex. intros Hv. destruct (d !! k) as [w|]; simpl.
  - split; congruence.
  - split; [congruence | discriminate].
Qed.

Lemma invalidPassword_nonempty user : invalidPassword user ≠ "".
Proof. discriminate. Qed.

(** What the handler does once the body is decoded and both fields are
    filled in. *)
Lemma Handler_checked byteData m c :
  json_Unmarshal byteData = inl c →
  User c ≠ "" → mapIndex (Metas c) "password" ≠ "" →
  pluginResponse (Handler json_Unmarshal json_Marshal (inl byteData) m) =
  Some (if bool_decide (mapIndex (Data m) (User c)
                        = mapIndex (Metas c) "password")
        then mkResponse false "" true
        else mkResponse true (invalidPassword (User c)) false).
Proof.
  intros Hdec Hu Hp. unfold Handler. rewrite Hdec.
  rewrite !bool_decide_false by done. cbn [orb].
  destruct (bool_decide _); cbv zeta;
    by destruct (json_Marshal _).
Qed.


End handler.

(** ** Statements about [Handler] *)

(** The two places where the response is encoded and written, lines
    161 to 169 and 180 to 188, leave the same exchange behind. *)
Lemma Handler_written json_Unmarshal json_Marshal byteData m c :
  json_Unmarshal byteData = inl c →
  ∃ d : Response,
    pluginResponse (Handler json_Unmarshal json_Marshal (inl byteData) m)
    = Some d
    ∧ Handler json_Unmarshal json_Marshal (inl byteData) m
      = match json_Marshal d with
        | inl resp => mkExchange StatusOK resp (Some d)
        | inr err =>
            mkExchange StatusInternalServerError (msgBody err) (Some d)
        end.
Proof.
  intros Hdec. unfold Handler. rewrite Hdec. cbv zeta.
  destruct (bool_decide (User c = "") || bool_decide (_ = ""));
    [|destruct (bool_decide (mapIndex (Data m) (User c) = _))];
    (eexists; split; [|reflexivity]); destruct (json_Marshal _); reflexivity.
Qed.

(** C1: for a decoded login request with non-empty user and non-empty
    password, the handler's decision is Unchanged (allow, nothing
    rejected) exactly when the table stores the supplied password under
    the user, and otherwise it is a Reject whose reason is
    "user: `<user>` invalid password" with the supplied user filled in;
    this decision is what the handler returns: its encoding is the body
    written with status 200 (status 500 and the msg body of the error
    when it cannot be encoded). *)
Theorem Handler_password_decision
    (json_Unmarshal : string → LoginContent + error)
    (json_Marshal : Response → string + error)
    (byteData : string) (m : Map) (c : LoginContent) :
  json_Unmarshal byteData = inl c →
  User c ≠ "" →
  mapIndex (Metas c) "password" ≠ "" →
  let password := mapIndex (Metas c) "password" in
  let ex := Handler json_Unmarshal json_Marshal (inl byteData) m in
  (pluginResponse ex = Some (mkResponse false "" true)
   ↔ Data m !! User c = Some password)
  ∧ (Data m !! User c ≠ Some password →
     pluginResponse ex
     = Some (mkResponse true ("user: `" +:+ User c +:+ "` invalid password")
               false))
  ∧ ∃ d : Response,
      pluginResponse ex = Some d
      ∧ match json_Marshal d with
        | inl resp => StatusCode ex = 200 ∧ Body ex = resp
        | inr err => StatusCode ex = 500 ∧ Body ex = msgBody err
        end.
Proof.
  intros Hdec Hu Hp password ex. split; [|split].
  - subst ex. rewrite (Handler_checked _ _ _ _ _ Hdec Hu Hp). fold password.
    destruct (decide (mapIndex (Data m) (User c) = password)) as [E|E].
    + rewrite bool_decide_true by done.
      apply mapIndex_eq in E; [|done]. done.
    + rewrite bool_decide_false by done.
      rewrite mapIndex_eq in E by done.
      split; [discriminate | by intros H; destruct E].
  - subst ex. rewrite (Handler_checked _ _ _ _ _ Hdec Hu Hp). fold password.
    intros E. rewrite <- mapIndex_eq in E by done.
    by rewrite bool_decide_false by done.
  - destruct (Handler_written json_Unmarshal json_Marshal byteData m c Hdec)
      as (d & Hd & Hex).
    exists d. split; [exact Hd|]. subst ex. rewrite Hex.
    by destruct (json_Marshal d).
Qed.

Lemma Handler_password_decision_alice :
  let ex password :=
    Handler (decodeAs (login "alice" password)) encodeShow (inl "")
      aliceTable in
  (pluginResponse (ex "secret") = Some (mkResponse false "" true)
   ∧ StatusCode (ex "secret") = 200 ∧ Body (ex "secret") = "unchange")
  ∧ (pluginResponse (ex "wrong")
     = Some (mkResponse true "user: `alice` invalid password" false)
     ∧ StatusCode (ex "wrong") = 200
     ∧ Body (ex "wrong") = "reject: user: `alice` invalid password").
Proof.
  cbv zeta. split.
  - pose proof (Handler_password_decision
                  (decodeAs (login "alice" "secret")) encodeShow ""
                  aliceTable (login "alice" "secret")
                  eq_refl ltac:(discriminate) ltac:(discriminate)) as H.
    cbv zeta in H. destruct H as (Hallow & _ & d & Hd & Hbody).
    pose proof (proj2 Hallow eq_refl) as Hr.
    rewrite Hr in Hd. injection Hd as <-.
    change (encodeShow (mkResponse false "" true))
      with (@inl string error "unchange") in Hbody.
    destruct Hbody as [Hcode Hbody]. by repeat split.
  - pose proof (Handler_password_decision
                  (decodeAs (login "alice" "wrong")) encodeShow ""
                  aliceTable (login "alice" "wrong")
                  eq_refl ltac:(discriminate) ltac:(discriminate)) as H.
    cbv zeta in H. destruct H as (_ & Hreject & d & Hd & Hbody).
    assert (Data aliceTable !! User (login "alice" "wrong")
            ≠ Some (mapIndex (Metas (login "alice" "wrong")) "password"))
      as Hne by (vm_compute; discriminate).
    pose proof (Hreject Hne) as Hr.
    rewrite Hr in Hd. injection Hd as <-.
    change (encodeShow _)
      with (@inl string error "reject: user: `alice` invalid password")
      in Hbody.
    destruct Hbody as [Hcode Hbody]. by repeat split.
Defined.



(** When the body has been read but does not decode, the handler answers
    with status 400 and the bytes of the decoder's error put between
    {"msg": " and "}, and no decision is produced. *)
Theorem Handler_undecodable
    (json_Unmarshal : string → LoginContent + error)
    (json_Marshal : Response → string + error)
    (byteData : string) (m : Map) (err : error) :
  json_Unmarshal byteData = inr err →
  let ex := Handler json_Unmarshal json_Marshal (inl byteData) m in
  StatusCode ex = 400
  ∧ Body ex = "{" +:+ DQ +:+ "msg" +:+ DQ +:+ ": " +:+ DQ +:+ err +:+ DQ +:+ "}"
  ∧ pluginResponse ex = None.
Proof. intros Hdec. cbv zeta. unfold Handler. by rewrite Hdec. Qed.

Lemma Handler_undecodable_eof :
  let ex := Handler (decodeFails "unexpected end of JSON input")
              (encodeAs "{}") (inl "{") aliceTable in
  StatusCode ex = 400 ∧ pluginResponse ex = None.
Proof.
  destruct (Handler_undecodable (decodeFails "unexpected end of JSON input")
              (encodeAs "{}") "{" aliceTable "unexpected end of JSON input")
    as (Hcode & _ & Hnone); [reflexivity|].
  split; [exact Hcode | exact Hnone].
Defined.

(** The error text goes into the body as it is: the body is a JSON
    object of the shape {"msg": "<error>"} exactly when the text reads as
    the inside of a JSON string up to its end. *)
Lemma isJSONMsg_msgBody err :
  isJSONMsg (msgBody err)
  = match jsonStringRest (err +:+ DQ +:+ "}") with
    | Some tail => bool_decide (tail = "}")
    | None => false
    end.
Proof. reflexivity. Qed.

(** C4: for a body that is read but does not decode the handler should
    answer with status 400 and a JSON body of the shape {"msg": "<error>"}.
    The code answers 400 and produces no decision, but it copies the
    error text into the body without escaping it: for the body {"a" "b"},
    which encoding/json refuses with an error text that holds a double
    quote, the body written is not a JSON text, while an error text
    without quote, backslash or control character does give one. *)
Theorem Handler_undecodable_unescaped
    (json_Marshal : Response → string + error) (m : Map) :
  let byteData := "{" +:+ DQ +:+ "a" +:+ DQ +:+ " " +:+ DQ +:+ "b" +:+ DQ +:+ "}" in
  let err := "invalid character '" +:+ DQ +:+ "' after object key" in
  let ex := Handler (decodeFails err) json_Marshal (inl byteData) m in
  StatusCode ex = 400
  ∧ pluginResponse ex = None
  ∧ Body ex = "{" +:+ DQ +:+ "msg" +:+ DQ +:+ ": " +:+ DQ
              +:+ "invalid character '" +:+ DQ +:+ "' after object key"
              +:+ DQ +:+ "}"
  ∧ isJSONMsg (Body ex) = false
  ∧ isJSONMsg
      (Body (Handler (decodeFails "unexpected end of JSON input")
               json_Marshal (inl "{") m)) = true.
Proof. cbv zeta. repeat split; vm_compute; reflexivity. Qed.

(** C7: for a request that decodes, the handler's response sets exactly
    one of the two decision fields: Unchange with Reject unset and an empty
    reason, or Reject with a non-empty reason and Unchange unset; it is
    written with status 200, or with status 500 when it cannot be
    encoded. *)
Theorem Handler_one_decision
    (json_Unmarshal : string → LoginContent + error)
    (json_Marshal : Response → string + error)
    (byteData : string) (m : Map) (c : LoginContent) :
  json_Unmarshal byteData = inl c →
  let ex := Handler json_Unmarshal json_Marshal (inl byteData) m in
  ∃ d : Response,
    pluginResponse ex = Some d
    ∧ ((Unchange d = true ∧ Reject d = false ∧ RejectReason d = "")
       ∨ (Reject d = true ∧ RejectReason d ≠ "" ∧ Unchange d = false))
    ∧ match json_Marshal d with
      | inl resp => StatusCode ex = 200 ∧ Body ex = resp
      | inr err => StatusCode ex = 500 ∧ Body ex = msgBody err
      end.
Proof.
  intros Hdec. cbv zeta. unfold Handler. rewrite Hdec. cbv zeta.
  destruct (bool_decide (User c = "") || bool_decide (_ = "")).
  - eexists. split; [by destruct (json_Marshal _)|]. split.
    + right. by repeat split.
    + by destruct (json_Marshal _).
  - destruct (bool_decide (mapIndex (Data m) (User c) = _)).
    + eexists. split; [by destruct (json_Marshal _)|]. split.
      * left. by repeat split.
      * by destruct (json_Marshal _).
    + eexists. split; [by destruct (json_Marshal _)|]. split.
      * right. by repeat split.
      * by destruct (json_Marshal _).
Qed.

Lemma Handler_one_decision_alice :
  ∃ d : Response,
    pluginResponse (Handler (decodeAs (login "alice" "secret"))
                      (encodeAs "{}") (inl "") aliceTable) = Some d
    ∧ ((Unchange d = true ∧ Reject d = false ∧ RejectReason d = "")
       ∨ (Reject d = true ∧ RejectReason d ≠ "" ∧ Unchange d = false)).
Proof.
  destruct (Handler_one_decision (decodeAs (login "alice" "secret"))
              (encodeAs "{}") "" aliceTable (login "alice" "secret"))
    as (d & Hd & Hone & _); [reflexivity|].
  exists d. split; [exact Hd | exact Hone].
Defined.



(** ** Statements about [readAuthFile] *)

(** C2: reading a credential file yields exactly the entries of its rows
    that contain '=', cut at the first '=', key and value trimmed, entries
    with an empty trimmed value left out, the last entry of a key winning;
    rows without '=' and blank rows contribute nothing.  In particular
    "key=value\n" gives {key: value}, "a=b=c\n" gives {a: b=c}, and
    "novalue=\n" and "noequals\n" give the empty table. *)
Theorem readAuthFile_Load (fs : FileSystem) (filename content : string) :
  readAuthFile (writeFile fs filename content) filename
  = Ok (Spec.Load content)
  ∧ (∀ k v : string,
       Spec.Load content !! k = Some v ↔
       ∃ es1 es2, Spec.entries content = es1 ++ (k, v) :: es2
                  ∧ ∀ v', (k, v') ∉ es2)
  ∧ readAuthFile (writeFile fs filename (line "key=value")) filename
    = Ok {[ "key" := "value" ]}
  ∧ readAuthFile (writeFile fs filename (line "a=b=c")) filename
    = Ok {[ "a" := "b=c" ]}
  ∧ readAuthFile (writeFile fs filename (line "novalue=")) filename = Ok ∅
  ∧ readAuthFile (writeFile fs filename (line "noequals")) filename = Ok ∅.
Proof.
  rewrite !readAuthFile_eq, !writeFile_read.
  split; [done|]. split; [intros k v; apply foldl_put_lookup|].
  repeat split; f_equal; vm_compute; reflexivity.
Qed.

(** C8: the loader fails exactly when reading the file fails, and then
    with the error of the read; rows without '=' or with an empty trimmed
    value are passed over, and whenever the file can be read a table is
    returned (in particular no index is ever out of range). *)
Theorem readAuthFile_error (fs : FileSystem) (filename : string) :
  (∀ err : error,
     readAuthFile fs filename = Err err ↔ os_ReadFile fs filename = Err err)
  ∧ (∀ content : string,
       os_ReadFile fs filename = Ok content →
       ∃ AuthMap, readAuthFile fs filename = Ok AuthMap)
  ∧ readAuthFile fs filename ≠ Panic
  ∧ (∀ (AuthMap : gmap string string) (row : string),
       Spec.entry row = None → readAuthFile_row AuthMap row = Ok AuthMap).
Proof.
  rewrite readAuthFile_eq. unfold os_ReadFile.
  destruct (fs filename) as [content|err'].
  - split; [intros err; split; discriminate|].
    split; [intros ? _; by eexists|]. split; [discriminate|].
    intros AuthMap row Hrow. by rewrite readAuthFile_row_entry, Hrow.
  - split; [intros err; split; by intros [= ->]|]. split; [discriminate|]. split; [discriminate|].
    intros AuthMap row Hrow. by rewrite readAuthFile_row_entry, Hrow.
Qed.

Lemma readAuthFile_error_samples :
  readAuthFile noFiles "./tokens"
  = Err "open ./tokens: no such file or directory"
  ∧ (∃ AuthMap,
       readAuthFile (writeFile noFiles "./tokens" (line "noequals"))
         "./tokens" = Ok AuthMap)
  ∧ readAuthFile_row ∅ "novalue=" = Ok ∅.
Proof.
  split; [|split].
  - apply (proj1 (readAuthFile_error noFiles "./tokens")). reflexivity.
  - apply (proj1 (proj2 (readAuthFile_error
                           (writeFile noFiles "./tokens" (line "noequals"))
                           "./tokens")) (line "noequals")).
    reflexivity.
  - apply (proj2 (proj2 (proj2 (readAuthFile_error noFiles "./tokens")))).
    vm_compute. reflexivity.
Defined.

(** C10: a credential file with CR LF line endings loads to the same
    table as the same content with LF line endings: the carriage returns
    left in front of the newlines fall to the trimming of the values. *)
Theorem readAuthFile_CRLF (fs : FileSystem) (filename content : string) :
  readAuthFile (writeFile fs filename (Spec.toCRLF content)) filename
  = readAuthFile (writeFile fs filename content) filename.
Proof.
  rewrite !readAuthFile_eq, !writeFile_read. f_equal.
  unfold Spec.Load, Spec.entries.
  by rewrite (entries_upToCRs _ _ (rows_toCRLF content)).
Qed.

(** ** Statements about the reload loop *)

Lemma reload_select_standing cfg sel st :
  standing (NewServer_reload_select cfg sel st)
  = match sel with ReloadDone => Returned | ReloadRefresh _ => Running end.
Proof.
  destruct sel as [|fs]; [done|]. unfold NewServer_reload_select.
  rewrite readAuthFile_eq. by destruct (fs (AuthFile cfg)).
Qed.

(** The loop is left only through the cancellation case. *)
Lemma reload_loop_standing cfg sels st :
  standing st = Running →
  standing (NewServer_reload_loop cfg sels st) ≠ Crashed
  ∧ (standing (NewServer_reload_loop cfg sels st) = Returned
     ↔ ReloadDone ∈ sels).
Proof.
  revert st. induction sels as [|sel sels IH]; intros st Hst.
  - simpl. rewrite Hst. split; [done|]. split; [done|]. intros H. inversion H.
  - cbn [NewServer_reload_loop]. cbv zeta.
    pose proof (reload_select_standing cfg sel st) as Hsel.
    destruct sel as [|fs]; rewrite Hsel.
    + rewrite Hsel. split; [done|]. split; [intros _; left | done].
    + destruct (IH _ Hsel) as [Hcrash Hret]. split; [done|].
      rewrite Hret. split; [by right|].
      intros H. inversion H; subst; done.
Qed.

(** C5: in a reload cycle whose read of the credential file fails, the
    loop logs the error, leaves the table as it was and goes on with the
    next cycle; the failure never brings the process down, and the loop
    is left only on cancellation. *)
Theorem reload_failure_keeps_table
    (cfg : Config) (fs : FileSystem) (err : error) (st : Reload)
    (sels : list ReloadSelect) :
  standing st = Running →
  os_ReadFile fs (AuthFile cfg) = Err err →
  let st' := NewServer_reload_select cfg (ReloadRefresh fs) st in
  let run := NewServer_reload_loop cfg (ReloadRefresh fs :: sels) st in
  Data (table st') = Data (table st)
  ∧ reloadLog st' = reloadLog st ++ [readErrorLine err]
  ∧ standing st' = Running
  ∧ run = NewServer_reload_loop cfg sels st'
  ∧ standing run ≠ Crashed
  ∧ (standing run = Returned ↔ ReloadDone ∈ sels).
Proof.
  intros Hst Hread st' run.
  assert (readAuthFile fs (AuthFile cfg) = Err err) as Hload.
  { rewrite readAuthFile_eq. unfold os_ReadFile in Hread.
    destruct (fs (AuthFile cfg)); congruence. }
  assert (st' = mkReload (mkMap (Data (table st)) (pred (RefreshChan (table st))))
                  (reloadLog st ++ [readErrorLine err]) Running) as Hst'.
  { subst st'. unfold NewServer_reload_select. by rewrite Hload. }
  assert (run = NewServer_reload_loop cfg sels st') as Hrun.
  { subst run. cbn [NewServer_reload_loop]. fold st'. by rewrite Hst'. }
  rewrite Hrun.
  destruct (reload_loop_standing cfg sels st') as [Hcrash Hret];
    [by rewrite Hst'|].
  rewrite Hst' at 1 2 3. by repeat split; try apply Hret.
Qed.

Lemma reload_failure_keeps_table_missing_file :
  let st := mkReload aliceTable [] Running in
  let st' := NewServer_reload_select sampleConfig (ReloadRefresh noFiles) st in
  Data (table st') = {[ "alice" := "secret" ]}
  ∧ reloadLog st'
    = [line "read auth file error: open ./tokens: no such file or directory"]
  ∧ standing st' = Running.
Proof.
  destruct (reload_failure_keeps_table sampleConfig noFiles
              "open ./tokens: no such file or directory"
              (mkReload aliceTable [] Running) [])
    as (Hdata & Hlog & Hstanding & _); [reflexivity | reflexivity |].
  split; [exact Hdata | split; [exact Hlog | exact Hstanding]].
Defined.

(** ** Statements about the watcher *)

Lemma replicate_snoc {A} (n : nat) (x : A) :
  replicate n x ++ [x] = replicate (S n) x.
Proof. induction n as [|n IH]; [done|]. simpl. by rewrite IH. Qed.










(** ** Sample runs of the loader and of a successful reload *)

Example readAuthFile_spaces_and_duplicates :
  readAuthFile
    (writeFile noFiles "./tokens"
       (line "  alice = secret  " +:+ line "bob=1" +:+ line "# comment"
        +:+ line "bob = 2" +:+ "carol=x=y" +:+ String CR ""))
    "./tokens"
  = Ok {[ "alice" := "secret"; "bob" := "2"; "carol" := "x=y" ]}.
Proof. vm_compute. reflexivity. Qed.

(** A value made of a no-break space (U+00A0) only is empty once trimmed. *)
Example readAuthFile_no_break_space :
  readAuthFile
    (writeFile noFiles "./tokens"
       (line ("alice=" +:+ String "194"%char (String "160"%char ""))))
    "./tokens"
  = Ok ∅.
Proof. vm_compute. reflexivity. Qed.

Lemma reload_success_replaces_table cfg fs content st :
  fs (AuthFile cfg) = inl content →
  let st' := NewServer_reload_select cfg (ReloadRefresh fs) st in
  Data (table st') = Spec.Load content
  ∧ reloadLog st' = reloadLog st
  ∧ standing st' = Running.
Proof.
  intros Hfs. cbv zeta. unfold NewServer_reload_select.
  by rewrite readAuthFile_eq, Hfs.
Qed.

(** * Further properties of the loader *)

(** ** Trimming is idempotent *)

Lemma stripAll_suffix pats fuel l :
  strings.stripAll pats fuel l `suffix_of` l.
Proof.
  revert l. induction fuel as [|fuel IH]; intros l; simpl; [done|].
  destruct (strings.stripOne pats l) as [t|] eqn:E; [|done].
  apply stripOne_Some in E as (p & _ & ->).
  etrans; [apply IH|]. by apply suffix_app_r.
Qed.

Lemma stripAll_id pats fuel l :
  strings.stripOne pats l = None → strings.stripAll pats fuel l = l.
Proof. intros H. destruct fuel; simpl; [done|]. by rewrite H. Qed.

(** What is left after stripping starts with none of the patterns. *)
Lemma stripAll_done pats l :
  Forall (fun p => p ≠ []) pats →
  strings.stripOne pats (strings.stripAll pats (length l) l) = None.
Proof.
  intros Hne. remember (length l) as n eqn:Hn. revert l Hn.
  induction (lt_wf n) as [n _ IH]. intros l ->.
  rewrite stripAll_unfold by done.
  destruct (strings.stripOne pats l) as [t|] eqn:E; [|done].
  apply (IH (length t)); [|done].
  apply stripOne_Some in E as (p & Hp & ->).
  rewrite Forall_forall in Hne. specialize (Hne p Hp).
  rewrite length_app. destruct p; [done|simpl; lia].
Qed.

Lemma stripOne_None_prefix pats l l' :
  l' `prefix_of` l →
  strings.stripOne pats l = None → strings.stripOne pats l' = None.
Proof.
  rewrite !stripOne_None. intros Hpre H p Hp Hpl'.
  apply (H p Hp). by etrans.
Qed.

Lemma trimRightSpace_rev l :
  rev (strings.trimRightSpace l)
  = strings.stripAll strings.revSpaceRunes (length (rev l)) (rev l).
Proof. unfold strings.trimRightSpace. by rewrite rev_involutive, length_rev. Qed.

Lemma trimRightSpace_prefix l : strings.trimRightSpace l `prefix_of` l.
Proof.
  destruct (stripAll_suffix strings.revSpaceRunes (length l) (rev l))
    as [k Hk].
  exists (rev k). unfold strings.trimRightSpace.
  rewrite <- rev_app_distr, <- Hk. by rewrite rev_involutive.
Qed.

(** A trimmed byte sequence is left alone by both trimmings. *)
Lemma trim_trimmed l :
  let t := strings.trimRightSpace (strings.trimLeftSpace l) in
  strings.trimLeftSpace t = t ∧ strings.trimRightSpace t = t.
Proof.
  intros t. split.
  - apply stripAll_id.
    apply (stripOne_None_prefix _ (strings.trimLeftSpace l));
      [apply trimRightSpace_prefix|].
    apply stripAll_done, spaceRunes_nonempty.
  - rewrite <- (rev_involutive (strings.trimRightSpace t)).
    rewrite <- (rev_involutive t) at 2. f_equal.
    rewrite trimRightSpace_rev. apply stripAll_id.
    subst t. rewrite trimRightSpace_rev.
    apply stripAll_done, revSpaceRunes_nonempty.
Qed.

Lemma TrimSpace_idempotent s :
  strings.TrimSpace (strings.TrimSpace s) = strings.TrimSpace s.
Proof.
  unfold strings.TrimSpace. rewrite list_ascii_of_string_of_list_ascii.
  destruct (trim_trimmed (list_ascii_of_string s)) as [Hl Hr].
  cbv zeta in Hl, Hr. by rewrite Hl, Hr.
Qed.

Lemma entry_trimmed row k v :
  Spec.entry row = Some (k, v) →
  strings.TrimSpace k = k ∧ strings.TrimSpace v = v.
Proof.
  unfold Spec.entry. destruct (Spec.cutFirst row) as [[key value]|]; [|done].
  destruct (bool_decide _); [done|]. intros [= <- <-].
  by rewrite !TrimSpace_idempotent.
Qed.

(** X1: every key and every value of a table built by the loader is free
    of white space at both ends (trimming it again changes nothing), and
    every value is non-empty. *)
Theorem readAuthFile_trimmed (fs : FileSystem) (filename : string)
    (AuthMap : gmap string string) (k v : string) :
  readAuthFile fs filename = Ok AuthMap →
  AuthMap !! k = Some v →
  strings.TrimSpace k = k ∧ strings.TrimSpace v = v ∧ v ≠ "".
Proof.
  rewrite readAuthFile_eq. destruct (fs filename) as [content|err]; [|done].
  intros [= <-] Hkv.
  split; [|split]; [| |by eapply Load_value_nonempty].
  all: unfold Spec.Load in Hkv; apply foldl_put_lookup in Hkv
         as (es1 & es2 & H & _);
       assert ((k, v) ∈ Spec.entries content) as Hin
         by (rewrite H; apply elem_of_app; right; left);
       apply list_elem_of_omap in Hin as (row & _ & Hrow);
       by destruct (entry_trimmed _ _ _ Hrow).
Qed.

Lemma readAuthFile_trimmed_sample :
  strings.TrimSpace "alice" = "alice"
  ∧ strings.TrimSpace "secret" = "secret" ∧ "secret" ≠ "".
Proof.
  apply (readAuthFile_trimmed
           (writeFile noFiles "./tokens" (line "  alice =  secret "))
           "./tokens" {[ "alice" := "secret" ]} "alice" "secret").
  - vm_compute. reflexivity.
  - reflexivity.
Defined.

(** ** Files put together from parts *)

Lemma pieces_app sep a b :
  Spec.pieces sep (a +:+ String sep b) = Spec.pieces sep a ++ Spec.pieces sep b.
Proof.
  induction a as [|c a IH].
  - change ("" +:+ String sep b) with (String sep b). simpl.
    by rewrite Ascii.eqb_refl.
  - rewrite append_cons. simpl. destruct (Ascii.eqb c sep).
    + by rewrite IH.
    + rewrite IH. pose proof (pieces_nonempty sep a) as Hne.
      by destruct (Spec.pieces sep a).
Qed.

Lemma entries_app a b :
  Spec.entries (a +:+ String LF b) = Spec.entries a ++ Spec.entries b.
Proof.
  unfold Spec.entries, Spec.rows. rewrite pieces_app.
  by rewrite omap_app.
Qed.

Lemma foldl_put_union es (m : gmap string string) :
  foldl Spec.put m es = foldl Spec.put ∅ es ∪ m.
Proof.
  induction es as [|[k v] es IH] using rev_ind.
  - simpl. by rewrite (left_id_L ∅ (∪)).
  - rewrite !foldl_put_snoc, IH. unfold Spec.put. cbn [fst snd].
    by rewrite insert_union_l.
Qed.

(** X2: the table of two files joined by a newline is the table of the
    second laid over the table of the first: an entry of the second file
    replaces an entry of the first with the same key, and no part makes
    the load fail. *)
Theorem readAuthFile_joined (fs : FileSystem) (filename a b : string) :
  ∃ A B : gmap string string,
    readAuthFile (writeFile fs filename a) filename = Ok A
    ∧ readAuthFile (writeFile fs filename b) filename = Ok B
    ∧ readAuthFile (writeFile fs filename (a +:+ String LF b)) filename
      = Ok (B ∪ A).
Proof.
  exists (Spec.Load a), (Spec.Load b).
  rewrite !readAuthFile_eq, !writeFile_read. repeat split. f_equal.
  unfold Spec.Load. by rewrite entries_app, foldl_app, foldl_put_union.
Qed.

Lemma rows_app_crs content k :
  Forall2 upToCRs (Spec.rows content) (Spec.rows (content +:+ Spec.crs k)).
Proof.
  induction content as [|c content IH].
  - change ("" +:+ Spec.crs k) with (Spec.crs k). rewrite rows_crs.
    constructor; [by exists k | done].
  - rewrite append_cons. by apply rows_cons.
Qed.

(** X3: a newline at the end of the file, and any number of carriage
    returns at the end of the file, leave the loaded table as it is. *)
Theorem readAuthFile_trailing (fs : FileSystem) (filename content : string)
    (k : nat) :
  readAuthFile (writeFile fs filename (line content)) filename
  = readAuthFile (writeFile fs filename content) filename
  ∧ readAuthFile (writeFile fs filename (content +:+ Spec.crs k)) filename
    = readAuthFile (writeFile fs filename content) filename.
Proof.
  rewrite !readAuthFile_eq, !writeFile_read. split; f_equal.
  - unfold line, Spec.Load. rewrite entries_app.
    change (Spec.entries "") with (@nil (string * string)).
    by rewrite app_nil_r.
  - unfold Spec.Load, Spec.entries.
    by rewrite (entries_upToCRs _ _ (rows_app_crs content k)).
Qed.

Lemma cut_None_rows content :
  Spec.cut EQ content = None →
  Forall (fun row => Spec.cut EQ row = None) (Spec.rows content).
Proof.
  unfold Spec.rows. induction content as [|c content IH]; simpl.
  - by repeat constructor.
  - destruct (Ascii.eqb c EQ) eqn:Hc; [done|].
    destruct (Spec.cut EQ content) as [[before after]|]; [done|].
    intros _. specialize (IH eq_refl).
    destruct (Ascii.eqb c LF).
    + by constructor.
    + destruct IH as [|row rest Hrow Hrest]; constructor; try done.
      * simpl. by rewrite Hc.
      * simpl. by rewrite Hc, Hrow.
Qed.

(** X4: a readable file without any '=' loads to the empty table; the
    load does not fail. *)
Theorem readAuthFile_no_separator (fs : FileSystem)
    (filename content : string) :
  fs filename = inl content →
  strings.Contains content EQ = false →
  readAuthFile fs filename = Ok ∅.
Proof.
  intros Hfs Hno. rewrite readAuthFile_eq, Hfs. f_equal.
  rewrite Contains_cut in Hno. apply bool_decide_eq_false in Hno.
  assert (Spec.cut EQ content = None) as Hcut.
  { destruct (Spec.cut EQ content); [destruct Hno; eauto | done]. }
  unfold Spec.Load, Spec.entries.
  assert (omap Spec.entry (Spec.rows content) = []) as ->; [|done].
  pose proof (cut_None_rows content Hcut) as Hrows.
  induction Hrows as [|row rest Hrow _ IH]; [done|].
  cbn [omap list_omap]. unfold Spec.entry at 1, Spec.cutFirst.
  by rewrite Hrow.
Qed.

Lemma readAuthFile_no_separator_sample :
  readAuthFile (writeFile noFiles "./tokens" (line "# no users yet"))
    "./tokens" = Ok ∅.
Proof.
  apply (readAuthFile_no_separator _ _ (line "# no users yet"));
    reflexivity.
Defined.

(** ** Writing a table out and loading it again *)

Lemma Contains_false_cut sep s :
  strings.Contains s sep = false ↔ Spec.cut sep s = None.
Proof.
  rewrite Contains_cut, bool_decide_eq_false. split.
  - intros H. destruct (Spec.cut sep s); [destruct H; eauto | done].
  - intros -> [? ?]. done.
Qed.

Lemma cut_app_sep sep k v :
  Spec.cut sep k = None → Spec.cut sep (k +:+ String sep v) = Some (k, v).
Proof.
  induction k as [|c k IH].
  - intros _. change ("" +:+ String sep v) with (String sep v). simpl.
    by rewrite Ascii.eqb_refl.
  - rewrite append_cons. simpl. destruct (Ascii.eqb c sep); [done|].
    destruct (Spec.cut sep k) as [[before after]|]; [done|].
    intros _. by rewrite IH.
Qed.

Lemma cut_app_None sep a b :
  Spec.cut sep a = None → Spec.cut sep b = None →
  Spec.cut sep (a +:+ b) = None.
Proof.
  intros Ha Hb. induction a as [|c a IH]; [done|].
  rewrite append_cons. simpl in *. destruct (Ascii.eqb c sep); [done|].
  destruct (Spec.cut sep a) as [[before after]|]; [done|]. by rewrite IH.
Qed.

Lemma entries_row row : Spec.cut LF row = None → Spec.entries row = omap Spec.entry [row].
Proof.
  intros H. unfold Spec.entries, Spec.rows. by rewrite pieces_cut, H.
Qed.

Lemma entries_clean kv :
  cleanEntry kv → Spec.entries (kv.1 +:+ String EQ kv.2) = [kv].
Proof.
  destruct kv as [k v]. intros (Hk & Hv & Hne & Hkeq & Hklf & Hvlf).
  cbn [fst snd] in *.
  apply Contains_false_cut in Hkeq, Hklf, Hvlf.
  rewrite entries_row.
  - cbn [omap list_omap]. unfold Spec.entry, Spec.cutFirst.
    rewrite cut_app_sep by done. rewrite Hk, Hv.
    by rewrite bool_decide_false by done.
  - apply cut_app_None; [done|]. simpl. by rewrite Hvlf.
Qed.

Lemma entries_render es :
  Forall cleanEntry es → Spec.entries (render es) = es.
Proof.
  induction 1 as [|[k v] es Hkv _ IH]; [done|].
  cbn [render]. rewrite <- append_assoc, entries_app, IH.
  pose proof (entries_clean (k, v) Hkv) as Hrow. cbn [fst snd] in Hrow.
  by rewrite Hrow.
Qed.

Lemma foldl_put_list_to_map es :
  foldl Spec.put ∅ es = list_to_map (reverse es).
Proof.
  induction es as [|[k v] es IH] using rev_ind; [done|].
  by rewrite foldl_put_snoc, reverse_snoc, IH.
Qed.

Lemma render_Load (m : gmap string string) :
  map_Forall (fun k v => cleanEntry (k, v)) m →
  Spec.Load (render (map_to_list m)) = m.
Proof.
  intros Hclean. unfold Spec.Load. rewrite entries_render.
  - rewrite foldl_put_list_to_map.
    rewrite <- (list_to_map_to_list m) at 2.
    apply list_to_map_proper.
    + rewrite fmap_reverse, reverse_Permutation. apply NoDup_fst_map_to_list.
    + apply reverse_Permutation.
  - apply map_Forall_to_list in Hclean.
    eapply Forall_impl; [exact Hclean|]. by intros [k v].
Qed.

(** X5: round trip.  A table whose keys and values are clean (no white
    space around them, no newline, no '=' in a key, no empty value),
    written out as one row key=value per entry, is loaded back as the
    same table. *)
Theorem readAuthFile_render (fs : FileSystem) (filename : string)
    (m : gmap string string) :
  map_Forall (fun k v => cleanEntry (k, v)) m →
  readAuthFile (writeFile fs filename (render (map_to_list m))) filename
  = Ok m.
Proof.
  intros Hclean. rewrite readAuthFile_eq, writeFile_read.
  by rewrite render_Load.
Qed.

Lemma clean_alice_secret : cleanEntry ("alice", "secret").
Proof. by repeat split. Qed.

Lemma readAuthFile_render_alice :
  readAuthFile
    (writeFile noFiles "./tokens"
       (render (map_to_list ({[ "alice" := "secret" ]} : gmap string string))))
    "./tokens"
  = Ok {[ "alice" := "secret" ]}.
Proof.
  apply (readAuthFile_render noFiles "./tokens" {[ "alice" := "secret" ]}).
  apply map_Forall_singleton. exact clean_alice_secret.
Defined.

(** X6: rows written out from a list of clean entries are loaded in the
    order of the list, a later entry replacing an earlier one with the
    same key: the table holds for each key the value of its last entry. *)
Theorem readAuthFile_render_list (fs : FileSystem) (filename : string)
    (es : list (string * string)) :
  Forall cleanEntry es →
  ∃ AuthMap : gmap string string,
    readAuthFile (writeFile fs filename (render es)) filename = Ok AuthMap
    ∧ ∀ k v, AuthMap !! k = Some v ↔
             ∃ es1 es2, es = es1 ++ (k, v) :: es2 ∧ ∀ v', (k, v') ∉ es2.
Proof.
  intros Hclean. exists (foldl Spec.put ∅ es). split.
  - rewrite readAuthFile_eq, writeFile_read. unfold Spec.Load.
    by rewrite entries_render.
  - intros k v. apply foldl_put_lookup.
Qed.

Lemma readAuthFile_render_list_twice :
  ∃ AuthMap : gmap string string,
    readAuthFile
      (writeFile noFiles "./tokens"
         (render [("alice", "old"); ("alice", "secret")])) "./tokens"
    = Ok AuthMap
    ∧ AuthMap !! "alice" = Some "secret".
Proof.
  destruct (readAuthFile_render_list noFiles "./tokens"
              [("alice", "old"); ("alice", "secret")])
    as (AuthMap & Hload & Hlookup).
  - repeat constructor; discriminate.
  - exists AuthMap. split; [exact Hload|].
    apply Hlookup. exists [("alice", "old")], [].
    split; [reflexivity|]. intros v' H. inversion H.
Defined.

(** * Further properties of the handler *)

Lemma Handler_decoded json_Unmarshal json_Marshal byteData m c :
  json_Unmarshal byteData = inl c →
  let user := User c in
  let password := mapIndex (Metas c) "password" in
  let d :=
    if bool_decide (user = "") || bool_decide (password = "")
    then mkResponse true emptyReason false
    else if bool_decide (mapIndex (Data m) user = password) then unchanged
         else mkResponse true (invalidPassword user) false in
  Handler json_Unmarshal json_Marshal (inl byteData) m
  = match json_Marshal d with
    | inr err => mkExchange StatusInternalServerError (msgBody err) (Some d)
    | inl resp => mkExchange StatusOK resp (Some d)
    end.
Proof.
  intros Hdec. cbv zeta. unfold Handler. rewrite Hdec. cbv zeta.
  destruct (bool_decide (User c = "") || bool_decide (_ = "")); [done|].
  by destruct (bool_decide (mapIndex (Data m) (User c) = _)).
Qed.



Ltac status_cases :=
  intros;
  repeat match goal with
         | H : ∃ _, _ |- _ => destruct H
         | H : _ ∧ _ |- _ => destruct H
         | H : _ ∨ _ |- _ => destruct H
         end;
  simplify_eq; try congruence; eauto 8.

(** X8: the status written is 500 exactly when reading the body failed or
    the decision could not be encoded, 400 exactly when the body was read
    but did not decode, and 200 otherwise; with 200 the body is the
    encoded decision, and with a failure it is the msg body of the
    error. *)
Theorem Handler_status
    (json_Unmarshal : string → LoginContent + error)
    (json_Marshal : Response → string + error)
    (r_Body : string + error) (m : Map) :
  let ex := Handler json_Unmarshal json_Marshal r_Body m in
  (StatusCode ex = 400
   ↔ ∃ byteData err, r_Body = inl byteData
                     ∧ json_Unmarshal byteData = inr err)
  ∧ (StatusCode ex = 500
     ↔ (∃ err, r_Body = inr err)
       ∨ (∃ d err, pluginResponse ex = Some d ∧ json_Marshal d = inr err))
  ∧ (StatusCode ex = 200
     ↔ ∃ d resp, pluginResponse ex = Some d ∧ json_Marshal d = inl resp
                 ∧ Body ex = resp)
  ∧ (StatusCode ex ≠ 200 → ∃ err, Body ex = msgBody err)
  ∧ (StatusCode ex = 200 ∨ StatusCode ex = 400 ∨ StatusCode ex = 500).
Proof.
  cbv zeta. destruct r_Body as [byteData|err0].
  - destruct (json_Unmarshal byteData) as [c|err1] eqn:Hdec.
    + rewrite (Handler_decoded _ _ _ _ _ Hdec). cbv zeta.
      destruct (json_Marshal _) as [resp|err2] eqn:Hmar;
        unfold StatusOK, StatusInternalServerError; cbn;
        repeat split; try done; status_cases.
    + unfold Handler. rewrite Hdec. unfold StatusBadRequest. cbn.
      repeat split; try done; status_cases.
  - unfold Handler, StatusInternalServerError. cbn.
    repeat split; try done; status_cases.
Qed.

Lemma Handler_status_read_error :
  StatusCode (Handler (decodeAs (login "alice" "secret")) (encodeAs "{}")
                (inr "unexpected EOF") aliceTable) = 500.
Proof.
  apply (proj2 (proj1 (proj2 (Handler_status
                  (decodeAs (login "alice" "secret")) (encodeAs "{}")
                  (inr "unexpected EOF") aliceTable)))).
  left. exists "unexpected EOF". reflexivity.
Defined.

(** X9: the outcome for a decoded login depends on the table only
    through the entry of the user of that login: two tables that agree on
    that key give the same response, whatever else they hold and however
    many signals are queued. *)
Theorem Handler_other_entries
    (json_Unmarshal : string → LoginContent + error)
    (json_Marshal : Response → string + error)
    (byteData : string) (c : LoginContent) (m m' : Map) :
  json_Unmarshal byteData = inl c →
  Data m !! User c = Data m' !! User c →
  Handler json_Unmarshal json_Marshal (inl byteData) m
  = Handler json_Unmarshal json_Marshal (inl byteData) m'.
Proof.
  intros Hdec Hsame. rewrite !(Handler_decoded _ _ _ _ _ Hdec). cbv zeta.
  assert (mapIndex (Data m) (User c) = mapIndex (Data m') (User c)) as E
    by (unfold mapIndex; by rewrite Hsame).
  by rewrite E.
Qed.

Lemma Handler_other_entries_sample :
  Handler (decodeAs (login "alice" "secret")) (encodeAs "{}") (inl "")
    aliceTable
  = Handler (decodeAs (login "alice" "secret")) (encodeAs "{}") (inl "")
      (mkMap {[ "alice" := "secret"; "bob" := "pw" ]} 3).
Proof.
  apply (Handler_other_entries _ _ "" (login "alice" "secret"));
    reflexivity.
Defined.

(** * Further properties of the watcher *)

Lemma inotifyAuthFile_select_running sel st :
  returned st = None → closed st = false →
  let st' := inotifyAuthFile_select sel st in
  (returned st' = None ∧ closed st' = false
   ∧ (sel = WatchDone → waiting st = true))
  ∨ (returned st' = Some None ∧ closed st' = true ∧ waiting st' = false
     ∧ sel = WatchDone ∧ waiting st = false).
Proof.
  intros Hr Hc. cbv zeta. unfold inotifyAuthFile_select.
  destruct (waiting st) eqn:Hw.
  - left. by destruct sel.
  - destruct sel as [|event|].
    + right. by repeat split.
    + left. destruct (Op event =? fsnotify.Write); [|done]. cbv zeta.
      by destruct (queued st <? refreshChanCap)%nat.
    + left. by repeat split.
Qed.

(** The loop keeps the watcher open while it runs, closes it when it
    returns, and returns only through the cancellation case, taken at a
    moment when the watcher does not wait in a send. *)
Lemma inotifyAuthFile_loop_return sels st :
  returned st = None → closed st = false →
  let w := inotifyAuthFile_loop sels st in
  (returned w = None ∧ closed w = false
   ∧ ∀ pre post, sels = pre ++ WatchDone :: post →
                 waiting (inotifyAuthFile_loop pre st) = true)
  ∨ (returned w = Some None ∧ closed w = true ∧ waiting w = false
     ∧ ∃ pre post, sels = pre ++ WatchDone :: post
                   ∧ returned (inotifyAuthFile_loop pre st) = None
                   ∧ waiting (inotifyAuthFile_loop pre st) = false).
Proof.
  revert st. induction sels as [|sel sels IH]; intros st Hr Hc; cbv zeta.
  - left. repeat split; try done. intros [|? ?] post H; discriminate H.
  - cbn [inotifyAuthFile_loop]. cbv zeta.
    destruct (inotifyAuthFile_select_running sel st Hr Hc)
      as [(Hr' & Hc' & Hdone)|(Hr' & Hc' & Hw' & -> & Hw)]; cbv zeta in *.
    + rewrite Hr'.
      destruct (IH _ Hr' Hc')
        as [(H1 & H2 & H3)|(H1 & H2 & Hw2 & pre & post & H3 & H4 & H5)];
        cbv zeta in *.
      * left. repeat split; try done. intros [|sel' pre] post Heq.
        -- injection Heq as -> _. by apply Hdone.
        -- injection Heq as <- ->. cbn [inotifyAuthFile_loop]. cbv zeta.
           rewrite Hr'. by eapply H3.
      * right. repeat split; try done. exists (sel :: pre), post.
        subst sels. split; [done|].
        cbn [inotifyAuthFile_loop]. cbv zeta. by rewrite Hr'.
    + rewrite Hr'. right. repeat split; try done.
      exists [], sels. by repeat split.
Qed.

(** X10: the watcher returns an error exactly when creating the watcher
    or adding the file fails, and that error; it returns nil exactly when
    both succeed and the cancellation case is taken, which needs a
    moment of the run at which the watcher has not returned and does not
    wait in a send; and a watcher that was created is closed exactly
    when the function has returned, so none is left open by a return nor
    closed while the loop runs or waits. *)
Theorem inotifyAuthFile_returns (NewWatcher Add : option error)
    (sels : list WatchSelect) :
  let w := inotifyAuthFile NewWatcher Add sels in
  (∀ err, returned w = Some (Some err)
          ↔ NewWatcher = Some err ∨ (NewWatcher = None ∧ Add = Some err))
  ∧ (returned w = Some None
     ↔ NewWatcher = None ∧ Add = None
       ∧ ∃ pre post,
           sels = pre ++ WatchDone :: post
           ∧ returned (inotifyAuthFile None None pre) = None
           ∧ waiting (inotifyAuthFile None None pre) = false)
  ∧ (returned w = Some None → WatchDone ∈ sels)
  ∧ (NewWatcher = None → (closed w = true ↔ returned w ≠ None))
  ∧ (NewWatcher ≠ None → closed w = false)
  ∧ (waiting w = true → returned w = None ∧ closed w = false).
Proof.
  cbv zeta. unfold inotifyAuthFile.
  destruct NewWatcher as [err0|]; [|destruct Add as [err1|]].
  - cbn. repeat split; try done; status_cases.
  - cbn. repeat split; try done; status_cases.
  - destruct (inotifyAuthFile_loop_return sels watchStart)
      as [(H1 & H2 & H3)|(H1 & H2 & Hw & pre & post & H3 & H4 & H5)];
      try reflexivity; cbv zeta in *; rewrite ?H1, ?H2, ?Hw.
    + split; [intros err; split; [done|by intros [?|[_ ?]]]|].
      split; [split; [done|]|].
      { intros (_ & _ & pre & post & Hsels & _ & Hwait).
        specialize (H3 pre post Hsels). congruence. }
      split; [done|]. split; [intros _; split; [done|by intros H]|].
      split; [done|done].
    + split; [intros err; split; [done|by intros [?|[_ ?]]]|].
      split; [split; [|done]|].
      { intros _. repeat split; try done. by exists pre, post. }
      split; [intros _; subst sels; apply elem_of_app; right; left|].
      split; [intros _; split; done|].
      split; [done|done].
Qed.

Lemma inotifyAuthFile_returns_add_fails :
  let w := inotifyAuthFile None (Some "no such file or directory")
             [WatchEvent (mkEvent "./tokens" fsnotify.Write)] in
  returned w = Some (Some "no such file or directory") ∧ closed w = true.
Proof.
  pose proof (inotifyAuthFile_returns None (Some "no such file or directory")
                [WatchEvent (mkEvent "./tokens" fsnotify.Write)])
    as (Herr & _ & _ & Hclosed & _).
  cbv zeta in *. split.
  - apply Herr. right. split; reflexivity.
  - apply Hclosed; [reflexivity|].
    rewrite (proj2 (Herr "no such file or directory"));
      [discriminate | right; split; reflexivity].
Defined.

(** What every step keeps: the log holds one line per send completed
    and one for a send that waits, the channel holds at most five
    signals, and the sends completed are the signals in the channel and
    those the reload loop has taken. *)
Lemma inotifyAuthFile_select_kept sel st (r : nat) :
  watchLog st
  = replicate (sent st + (if waiting st then 1 else 0)) changedLine →
  (queued st ≤ refreshChanCap)%nat →
  (sent st ≤ queued st + r)%nat →
  let st' := inotifyAuthFile_select sel st in
  watchLog st'
  = replicate (sent st' + (if waiting st' then 1 else 0)) changedLine
  ∧ (queued st' ≤ refreshChanCap)%nat
  ∧ (sent st' ≤ queued st' + (r + (if isReceive sel then 1 else 0)))%nat.
Proof.
  intros Hlog Hq Hs. cbv zeta. unfold inotifyAuthFile_select.
  destruct (waiting st) eqn:Hw.
  - destruct sel as [|event|]; cbn [isReceive]; rewrite ?Hw;
      cbn [watchLog sent waiting queued].
    + repeat split; [done|lia..].
    + repeat split; [done|lia..].
    + rewrite Hlog. repeat split; [f_equal; lia | unfold refreshChanCap in *; lia | lia].
  - destruct sel as [|event|]; cbn [isReceive];
      cbn [watchLog sent waiting queued].
    + repeat split; [by rewrite Hlog | lia..].
    + destruct (Op event =? fsnotify.Write); cbv zeta;
        [|rewrite Hw; repeat split; [done|lia..]].
      destruct (Nat.ltb_spec (queued st) refreshChanCap) as [Hroom|Hfull];
        cbn [watchLog sent waiting queued]; rewrite Hlog, replicate_snoc.
      * repeat split; [f_equal; lia | lia..].
      * repeat split; [f_equal; lia | lia..].
    + repeat split; [by rewrite Hlog | lia..].
Qed.

Lemma inotifyAuthFile_loop_kept sels st (r : nat) :
  watchLog st
  = replicate (sent st + (if waiting st then 1 else 0)) changedLine →
  (queued st ≤ refreshChanCap)%nat →
  (sent st ≤ queued st + r)%nat →
  let w := inotifyAuthFile_loop sels st in
  watchLog w
  = replicate (sent w + (if waiting w then 1 else 0)) changedLine
  ∧ (queued w ≤ refreshChanCap)%nat
  ∧ (sent w ≤ queued w + (r + receives sels))%nat.
Proof.
  revert st r. induction sels as [|sel sels IH]; intros st r Hlog Hq Hs;
    cbv zeta.
  - unfold receives. simpl. repeat split; [done|lia..].
  - cbn [inotifyAuthFile_loop]. cbv zeta.
    destruct (inotifyAuthFile_select_kept sel st r Hlog Hq Hs)
      as (Hlog' & Hq' & Hs'). cbv zeta in *.
    assert (receives (sel :: sels)
            = ((if isReceive sel then 1 else 0) + receives sels)%nat) as ->.
    { unfold receives. rewrite filter_cons.
      destruct (isReceive sel); [by rewrite decide_True|].
      by rewrite decide_False. }
    destruct (returned (inotifyAuthFile_select sel st)).
    + repeat split; [done|lia..].
    + destruct (IH _ _ Hlog' Hq' Hs') as (H1 & H2 & H3). cbv zeta in *.
      repeat split; [done|lia..].
Qed.

(** X11: in every run of the watcher the log holds one line
    "auth file changed, read again..." for every signal sent and one for
    a send that still waits for room, and nothing else; the channel never
    holds more than five signals; and every signal sent is either still
    in the channel or was taken by the reload loop, so the watcher is
    never more than five signals ahead of the reload loop. *)
Theorem inotifyAuthFile_log (NewWatcher Add : option error)
    (sels : list WatchSelect) :
  let w := inotifyAuthFile NewWatcher Add sels in
  watchLog w = replicate (sent w + (if waiting w then 1 else 0)) changedLine
  ∧ (queued w ≤ 5)%nat
  ∧ (sent w ≤ queued w + receives sels)%nat
  ∧ (sent w ≤ 5 + receives sels)%nat.
Proof.
  cbv zeta. unfold inotifyAuthFile.
  destruct NewWatcher as [err0|]; [|destruct Add as [err1|]].
  - cbn. split; [done|]. split; [lia|]. split; lia.
  - cbn. split; [done|]. split; [lia|]. split; lia.
  - destruct (inotifyAuthFile_loop_kept sels watchStart 0)
      as (H1 & H2 & H3); [reflexivity | unfold refreshChanCap; simpl; lia
                         | simpl; lia |].
    cbv zeta in *. unfold refreshChanCap in *.
    split; [done|]. split; [lia|]. split; lia.
Qed.

(** * Further properties of the reload loop and of the start *)

Lemma reload_loop_app cfg sels1 sels2 st :
  standing (NewServer_reload_loop cfg sels1 st) = Running →
  NewServer_reload_loop cfg (sels1 ++ sels2) st
  = NewServer_reload_loop cfg sels2 (NewServer_reload_loop cfg sels1 st).
Proof.
  revert st. induction sels1 as [|sel sels1 IH]; intros st Hrun; [done|].
  cbn [app NewServer_reload_loop] in *. cbv zeta in *.
  destruct (standing (NewServer_reload_select cfg sel st)) eqn:E.
  - by apply IH.
  - by rewrite E in Hrun.
  - by rewrite E in Hrun.
Qed.

Lemma reload_loop_running cfg sels st :
  standing st = Running → ReloadDone ∉ sels →
  standing (NewServer_reload_loop cfg sels st) = Running.
Proof.
  intros Hst Hno.
  destruct (reload_loop_standing cfg sels st Hst) as [Hcrash Hret].
  destruct (standing (NewServer_reload_loop cfg sels st)); [done| |done].
  destruct Hno. by apply Hret.
Qed.

Lemma reload_loop_failures cfg sels st :
  standing st = Running →
  Forall (readFails (AuthFile cfg)) sels →
  Data (table (NewServer_reload_loop cfg sels st)) = Data (table st)
  ∧ standing (NewServer_reload_loop cfg sels st) = Running
  ∧ length (reloadLog (NewServer_reload_loop cfg sels st))
    = (length (reloadLog st) + length sels)%nat.
Proof.
  intros Hst Hfail. revert st Hst.
  induction Hfail as [|sel sels Hsel _ IH]; intros st Hst.
  - simpl. repeat split; [done|lia].
  - cbn [NewServer_reload_loop length]. cbv zeta.
    destruct sel as [|fs]; [done|]. destruct Hsel as [err Herr].
    assert (NewServer_reload_select cfg (ReloadRefresh fs) st
            = mkReload (mkMap (Data (table st)) (pred (RefreshChan (table st))))
                (reloadLog st ++ [readErrorLine err]) Running) as ->.
    { unfold NewServer_reload_select. by rewrite readAuthFile_eq, Herr. }
    cbn [standing].
    destruct (IH (mkReload
                    (mkMap (Data (table st)) (pred (RefreshChan (table st))))
                    (reloadLog st ++ [readErrorLine err]) Running) eq_refl)
      as (H1 & H2 & H3).
    rewrite H1, H2, H3. cbn [table Data reloadLog].
    rewrite length_app. simpl. repeat split; lia.
Qed.

(** X13: as long as every reload fails, the table stays the one the loop
    started with, whatever the number of cycles; the loop is still
    running, and the log has grown by one line per cycle. *)
Theorem reload_failures_keep_table (cfg : Config)
    (sels : list ReloadSelect) (st : Reload) :
  standing st = Running →
  Forall (readFails (AuthFile cfg)) sels →
  let run := NewServer_reload_loop cfg sels st in
  Data (table run) = Data (table st)
  ∧ standing run = Running
  ∧ length (reloadLog run) = (length (reloadLog st) + length sels)%nat.
Proof. intros Hst Hfail. cbv zeta. by apply reload_loop_failures. Qed.

Lemma reload_failures_keep_table_twice :
  Data (table (NewServer_reload_loop sampleConfig
                 [ReloadRefresh noFiles; ReloadRefresh noFiles]
                 (mkReload aliceTable [] Running)))
  = {[ "alice" := "secret" ]}.
Proof.
  apply (reload_failures_keep_table sampleConfig
           [ReloadRefresh noFiles; ReloadRefresh noFiles]
           (mkReload aliceTable [] Running)).
  - reflexivity.
  - repeat constructor; by eexists.
Defined.

(** X14: after a reload that succeeds, followed by any number of reloads
    that fail, the table is exactly the one read by the successful
    reload: nothing of the earlier table is left, whatever cycles came
    before. *)
Theorem reload_last_success (cfg : Config) (fs : FileSystem)
    (AuthMap : gmap string string) (before after : list ReloadSelect)
    (st : Reload) :
  standing st = Running →
  ReloadDone ∉ before →
  readAuthFile fs (AuthFile cfg) = Ok AuthMap →
  Forall (readFails (AuthFile cfg)) after →
  Data (table (NewServer_reload_loop cfg
                 (before ++ ReloadRefresh fs :: after) st))
  = AuthMap.
Proof.
  intros Hst Hno Hload Hfail.
  pose proof (reload_loop_running cfg before st Hst Hno) as Hrun.
  rewrite reload_loop_app by done. cbn [NewServer_reload_loop]. cbv zeta.
  set (st1 := NewServer_reload_loop cfg before st) in *.
  assert (NewServer_reload_select cfg (ReloadRefresh fs) st1
          = mkReload (mkMap AuthMap (pred (RefreshChan (table st1))))
              (reloadLog st1) Running) as ->.
  { unfold NewServer_reload_select. by rewrite Hload. }
  cbn [standing].
  by destruct (reload_loop_failures cfg after
                 (mkReload (mkMap AuthMap (pred (RefreshChan (table st1))))
                    (reloadLog st1) Running) eq_refl Hfail) as (H1 & _).
Qed.

Lemma reload_last_success_sample :
  Data (table (NewServer_reload_loop sampleConfig
                 ([ReloadRefresh noFiles]
                  ++ ReloadRefresh (writeFile noFiles "./tokens" "bob=pw")
                  :: [ReloadRefresh noFiles])
                 (mkReload aliceTable [] Running)))
  = {[ "bob" := "pw" ]}.
Proof.
  apply (reload_last_success sampleConfig
           (writeFile noFiles "./tokens" "bob=pw") {[ "bob" := "pw" ]}
           [ReloadRefresh noFiles] [ReloadRefresh noFiles]
           (mkReload aliceTable [] Running)).
  - reflexivity.
  - intros H. inversion H as [|? ? ? H']; inversion H'.
  - vm_compute. reflexivity.
  - repeat constructor; by eexists.
Defined.

(** X15: the start ends in a fatal log exactly when the bind address
    does not parse or the credential file cannot be read, the address
    being checked first; otherwise the server goes on with the table the
    loader returns and an empty signal queue.  The start never panics. *)
Theorem NewServer_start_outcome
    (net_SplitHostPort : string → option error) (cfg : Config)
    (fs : FileSystem) :
  let start := NewServer_start net_SplitHostPort cfg fs in
  (∀ err, net_SplitHostPort (BindAddress cfg) = Some err →
          start = Fatal (line ("parse bind address error: " +:+ err)))
  ∧ (∀ err, net_SplitHostPort (BindAddress cfg) = None →
            os_ReadFile fs (AuthFile cfg) = Err err →
            start = Fatal (line ("read auth file error: " +:+ err)))
  ∧ (∀ m, start = Started m ↔
          net_SplitHostPort (BindAddress cfg) = None
          ∧ readAuthFile fs (AuthFile cfg) = Ok (Data m)
          ∧ RefreshChan m = 0%nat)
  ∧ start ≠ StartPanic.
Proof.
  cbv zeta. unfold NewServer_start, os_ReadFile.
  rewrite readAuthFile_eq.
  destruct (net_SplitHostPort (BindAddress cfg)) as [err0|].
  - repeat split; try done; status_cases.
  - destruct (fs (AuthFile cfg)) as [content|err1].
    + split; [done|]. split; [done|]. split; [|done]. intros m. split.
      * by intros [= <-].
      * intros (_ & [= H] & Hchan). destruct m as [d n]. simpl in *.
        by subst.
    + repeat split; try done; status_cases.
Qed.

Lemma NewServer_start_outcome_bad_address :
  NewServer_start (fun _ => Some "missing port in address") sampleConfig
    (writeFile noFiles "./tokens" "alice=secret")
  = Fatal (line "parse bind address error: missing port in address").
Proof.
  apply (proj1 (NewServer_start_outcome
                  (fun _ => Some "missing port in address") sampleConfig
                  (writeFile noFiles "./tokens" "alice=secret"))).
  reflexivity.
Defined.

(** X16: end to end.  A server started on a file that lists a clean
    table, one row per entry, lets a decoded login through exactly when
    the user is non-empty and the table holds the supplied password under
    that user; the decision is what the handler writes: its encoding is
    the body sent with status 200 (status 500 and the msg body of the
    error when it cannot be encoded). *)
Theorem NewServer_start_Handler
    (net_SplitHostPort : string → option error) (cfg : Config)
    (fs : FileSystem) (m0 : gmap string string) :
  net_SplitHostPort (BindAddress cfg) = None →
  map_Forall (fun k v => cleanEntry (k, v)) m0 →
  ∃ m : Map,
    NewServer_start net_SplitHostPort cfg
      (writeFile fs (AuthFile cfg) (render (map_to_list m0)))
    = Started m
    ∧ ∀ (json_Unmarshal : string → LoginContent + error)
        (json_Marshal : Response → string + error)
        (byteData : string) (c : LoginContent),
        json_Unmarshal byteData = inl c →
        let ex := Handler json_Unmarshal json_Marshal (inl byteData) m in
        (pluginResponse ex = Some unchanged
         ↔ User c ≠ ""
           ∧ m0 !! User c = Some (mapIndex (Metas c) "password"))
        ∧ ∃ d : Response,
            pluginResponse ex = Some d
            ∧ (d ≠ unchanged → Reject d = true ∧ Unchange d = false)
            ∧ match json_Marshal d with
              | inl resp => StatusCode ex = 200 ∧ Body ex = resp
              | inr err => StatusCode ex = 500 ∧ Body ex = msgBody err
              end.
Proof.
  intros Haddr Hclean. exists (mkMap m0 0). split.
  - unfold NewServer_start. rewrite Haddr, readAuthFile_eq, writeFile_read.
    by rewrite render_Load.
  - intros json_Unmarshal json_Marshal byteData c Hdec. cbv zeta.
    rewrite (Handler_decoded _ _ _ _ _ Hdec). cbv zeta. cbn [Data].
    set (d := if _ : bool then _ else _).
    assert (pluginResponse
              match json_Marshal d with
              | inl resp => mkExchange StatusOK resp (Some d)
              | inr err =>
                  mkExchange StatusInternalServerError (msgBody err) (Some d)
              end = Some d) as Hd by (by destruct (json_Marshal d)).
    rewrite Hd. split.
    + subst d. destruct (decide (User c = "")) as [Hu|Hu].
      { rewrite (bool_decide_true _ Hu). cbn [orb].
        split; [discriminate | by intros [? _]]. }
      rewrite (bool_decide_false _ Hu). cbn [orb].
      destruct (decide (mapIndex (Metas c) "password" = "")) as [Hp|Hp].
      { rewrite (bool_decide_true _ Hp). split; [discriminate|].
        intros [_ Hm]. rewrite Hp in Hm.
        destruct (Hclean _ _ Hm) as (_ & _ & Hne & _). done. }
      rewrite (bool_decide_false _ Hp).
      destruct (decide (mapIndex m0 (User c) = mapIndex (Metas c) "password"))
        as [E|E].
      * rewrite (bool_decide_true _ E). apply mapIndex_eq in E; done.
      * rewrite (bool_decide_false _ E). split; [discriminate|].
        intros [_ Hm]. destruct E. by apply mapIndex_eq.
    + exists d. split; [done|]. split.
      * subst d. destruct (_ || _); [done|].
        by destruct (bool_decide _).
      * by destruct (json_Marshal d).
Qed.

Lemma NewServer_start_Handler_alice :
  ∃ m : Map,
    NewServer_start (fun _ => None) sampleConfig
      (writeFile noFiles "./tokens"
         (render (map_to_list ({[ "alice" := "secret" ]}
                               : gmap string string))))
    = Started m
    ∧ pluginResponse
        (Handler (decodeAs (login "alice" "secret")) encodeShow
           (inl "") m) = Some unchanged.
Proof.
  destruct (NewServer_start_Handler (fun _ => None) sampleConfig noFiles
              {[ "alice" := "secret" ]})
    as (m & Hstart & Hlogin).
  - reflexivity.
  - apply map_Forall_singleton. exact clean_alice_secret.
  - exists m. split; [exact Hstart|].
    apply (Hlogin (decodeAs (login "alice" "secret")) encodeShow ""
             (login "alice" "secret")); [reflexivity|].
    split; [discriminate | reflexivity].
Defined.
